(** * Laberinto: a shallow embedding of [maze.py] and its verified properties

    The development follows the source file top-down: search-tree nodes, the
    two frontiers, maze construction from text, [neighbors], and the search
    loop of [solve].  Python integers are [Z], Python lists are [list],
    the explored [set] is a [gset], Python exceptions are values of [Exn]
    carried by the error monad [Result]. *)

From Stdlib Require Import ZArith List String Bool Lia.
From stdpp Require Import gmap sets list.
Import ListNotations.

Local Open Scope Z_scope.
#[local] Set Warnings "-clear-no-such-hyp".

(** ** Exceptions and the error monad *)

(** [Exception msg] is [raise Exception(msg)]; the other constructors are the
    built-in exception classes the interpreter itself can raise in this file. *)
Inductive Exn : Type :=
| Exception (msg : string)
| IndexError
| ValueError
| AttributeError.

Inductive Result (A : Type) : Type :=
| Ok (a : A)
| Raise (e : Exn).
Arguments Ok {A} a.
Arguments Raise {A} e.

Definition bind {A B} (r : Result A) (k : A -> Result B) : Result B :=
  match r with
  | Ok a => k a
  | Raise e => Raise e
  end.

Notation "'let*' x ':=' r 'in' k" := (bind r (fun x => k))
  (at level 10, x pattern, r at level 100, k at level 200).

(** [l[i]] on a Python list, negative indices included. *)
Definition py_index {A} (l : list A) (i : Z) : Result A :=
  let j := if 0 <=? i then i else Z.of_nat (length l) + i in
  if j <? 0 then Raise IndexError
  else match nth_error l (Z.to_nat j) with
       | Some a => Ok a
       | None => Raise IndexError
       end.

(** ** Search-tree nodes *)

(** A state is a [(row, col)] tuple. *)
Definition State : Type := Z * Z.

(** The four action labels used by [neighbors]. *)
Inductive Action : Type := up | down | left | right.

#[global] Instance Action_eq_dec : EqDecision Action.
Proof. solve_decision. Defined.

(** [class Node]: three fields, [parent] and [action] are [None] at the root. *)
#[warnings="-register-all"]
Inductive Node : Type :=
| mkNode (state : State) (parent : option Node) (action : option Action).

Definition state (n : Node) : State := let (s, _, _) := n in s.
Definition parent (n : Node) : option Node := let (_, p, _) := n in p.
Definition action (n : Node) : option Action := let (_, _, a) := n in a.

(** ** Frontiers *)

(** [StackFrontier]: the attribute [frontier] is a list, appended at the end. *)
Module StackFrontier.
Definition t : Type := list Node.

Definition init : t := [].

Definition add (f : t) (node : Node) : t := f ++ [node].

Definition contains_state (f : t) (s : State) : bool :=
  existsb (fun node => bool_decide (state node = s)) f.

Definition empty (f : t) : bool := (length f =? 0)%nat.

(** [list.pop()] removes and returns the last element. *)
Definition remove (f : t) : Result (Node * t) :=
  if empty f then Raise (Exception "empty frontier")
  else match last f with
       | Some node => Ok (node, removelast f)
       | None => Raise IndexError
       end.
End StackFrontier.

(** [QueueFrontier(StackFrontier)]: inherits everything but [remove]. *)
Module QueueFrontier.
Definition t : Type := StackFrontier.t.
Definition init : t := StackFrontier.init.
Definition add : t -> Node -> t := StackFrontier.add.
Definition contains_state : t -> State -> bool := StackFrontier.contains_state.
Definition empty : t -> bool := StackFrontier.empty.

(** [list.pop(0)] removes and returns the first element. *)
Definition remove (f : t) : Result (Node * t) :=
  if empty f then Raise (Exception "empty frontier")
  else match f with
       | node :: rest => Ok (node, rest)
       | [] => Raise IndexError
       end.
End QueueFrontier.

(** ** The maze object *)

(** A [str] is a sequence of Unicode code points. *)
Abbreviation Text := (list N) (only parsing).

(** [codes] turns a string literal into the text it denotes. *)
Definition codes (s : string) : Text :=
  map Ascii.N_of_ascii (list_ascii_of_string s).

Definition chr_A : N := 65%N.
Definition chr_B : N := 66%N.
Definition chr_hash : N := 35%N.
Definition chr_LF : N := 10%N.
Definition chr_CR : N := 13%N.

(** [str.count] for a one-character pattern. *)
Definition count (c : N) (s : Text) : Z :=
  Z.of_nat (length (List.filter (fun x => N.eqb x c) s)).

(** The line boundaries of [str.splitlines]. *)
Definition is_linebreak (c : N) : bool :=
  existsb (N.eqb c) [10; 11; 12; 13; 28; 29; 30; 133; 8232; 8233]%N.

(** [str.splitlines()]: [cur] is the line being read (reversed), [after_cr]
    tells that the previous character was a carriage return, so that a line
    feed right after it belongs to the same boundary.  A trailing boundary
    opens no further line. *)
Fixpoint splitlines_from (cur : Text) (after_cr : bool) (s : Text) : list Text :=
  match s with
  | [] => match cur with [] => [] | _ => [rev cur] end
  | c :: rest =>
      if after_cr && N.eqb c chr_LF then splitlines_from cur false rest
      else if is_linebreak c then rev cur :: splitlines_from [] (N.eqb c chr_CR) rest
      else splitlines_from (c :: cur) false rest
  end.

Definition splitlines (s : Text) : list Text := splitlines_from [] false s.

(** [max] of a generator: [ValueError] on an empty one. *)
Definition py_max (l : list Z) : Result Z :=
  match l with
  | [] => Raise ValueError
  | x :: rest => Ok (fold_left Z.max rest x)
  end.

(** [range(n)] *)
Definition range (n : Z) : list nat := seq 0 (Z.to_nat n).

(** The solution stored by [solve]: the pair [(actions, cells)]. *)
Definition Solution : Type := (list (option Action) * list State)%type.

(** [class Maze].  [start] and [goal] are assigned inside the parsing loops,
    [num_explored] and [explored] only by [solve]: an attribute that has not
    been assigned is [None]. *)
Record Maze : Type := mkMaze {
  height : Z;
  width : Z;
  walls : list (list bool);
  start : option State;
  goal : option State;
  solution : option Solution;
  num_explored : option Z;
  explored : option (gset State)
}.

(** [contents[i][j]]; [None] is the [IndexError] caught by the [try]. *)
Definition char_at (contents : list Text) (i j : nat) : option N :=
  match nth_error contents i with
  | Some line => nth_error line j
  | None => None
  end.

(** Body of the inner loop: the running [start], [goal] and [row]. *)
Definition parse_cell (contents : list Text) (i j : nat)
    (acc : option State * option State * list bool)
    : option State * option State * list bool :=
  let '(st, gl, row) := acc in
  match char_at contents i j with
  | Some c =>
      if N.eqb c chr_A then (Some (Z.of_nat i, Z.of_nat j), gl, row ++ [false])
      else if N.eqb c chr_B then (st, Some (Z.of_nat i, Z.of_nat j), row ++ [false])
      else if N.eqb c chr_hash then (st, gl, row ++ [true])
      else (st, gl, row ++ [false])
  | None => (st, gl, row ++ [false])
  end.

(** Body of the outer loop. *)
Definition parse_row (contents : list Text) (w : Z) (i : nat)
    (acc : option State * option State * list (list bool))
    : option State * option State * list (list bool) :=
  let '(st, gl, ws) := acc in
  let '(st', gl', row) :=
    fold_left (fun a j => parse_cell contents i j a) (range w) (st, gl, []) in
  (st', gl', ws ++ [row]).

(** [Maze.__init__], from the text read from the file. *)
Definition Maze_init (contents : Text) : Result Maze :=
  if negb (count chr_A contents =? 1) then
    Raise (Exception "maze must have exactly one start point")
  else if negb (count chr_B contents =? 1) then
    Raise (Exception "maze must have exactly one goal")
  else
    let contents := splitlines contents in
    let h := Z.of_nat (length contents) in
    let* w := py_max (map (fun line => Z.of_nat (length line)) contents) in
    let '(st, gl, ws) :=
      fold_left (fun a i => parse_row contents w i a) (range h) (None, None, []) in
    Ok {| height := h; width := w; walls := ws; start := st; goal := gl;
          solution := None; num_explored := None; explored := None |}.

(** ** Neighbours *)

Definition candidates (s : State) : list (Action * State) :=
  let '(row, col) := s in
  [ (up, (row - 1, col));
    (down, (row + 1, col));
    (left, (row, col - 1));
    (right, (row, col + 1)) ].

(** The filtering loop of [neighbors]; [and] is short-circuiting, so the wall
    matrix is only read when the bounds tests have passed. *)
Fixpoint neighbors_loop (m : Maze) (cands : list (Action * State))
    (result : list (Action * State)) : Result (list (Action * State)) :=
  match cands with
  | [] => Ok result
  | (a, (r, c)) :: rest =>
      if (0 <=? r) && (r <? height m) && (0 <=? c) && (c <? width m) then
        let* wrow := py_index (walls m) r in
        let* w := py_index wrow c in
        if negb w then neighbors_loop m rest (result ++ [(a, (r, c))])
        else neighbors_loop m rest result
      else neighbors_loop m rest result
  end.

Definition neighbors (m : Maze) (s : State) : Result (list (Action * State)) :=
  neighbors_loop m (candidates s) [].

(** ** The search *)

(** Path reconstruction: the inner [while node.parent is not None] loop. *)
Fixpoint backtrack (node : Node) (actions : list (option Action))
    (cells : list State) : list (option Action) * list State :=
  match node with
  | mkNode s (Some p) a => backtrack p (actions ++ [a]) (cells ++ [s])
  | mkNode _ None _ => (actions, cells)
  end.

Definition reconstruct (node : Node) : Solution :=
  let '(actions, cells) := backtrack node [] [] in
  (rev actions, rev cells).

(** What the search loop reads and writes: the local [frontier] and the two
    attributes [self.explored] and [self.num_explored]. *)
Record Run : Type := mkRun {
  frontier : StackFrontier.t;
  run_explored : gset State;
  run_num_explored : Z
}.

(** The [for action, state in self.neighbors(node.state)] loop. *)
Fixpoint add_children (node : Node) (ex : gset State)
    (nbrs : list (Action * State)) (f : StackFrontier.t) : StackFrontier.t :=
  match nbrs with
  | [] => f
  | (a, s) :: rest =>
      if negb (StackFrontier.contains_state f s) && bool_decide (s ∉ ex)
      then add_children node ex rest
             (StackFrontier.add f (mkNode s (Some node) (Some a)))
      else add_children node ex rest f
  end.

(** One pass through the body of [while True]: it either leaves the loop
    ([Done], by [return] or by an exception) or goes round again. *)
Inductive Step : Type :=
| Done (st : Run) (r : Result Solution)
| Again (st : Run).

Definition step (m : Maze) (st : Run) : Step :=
  if StackFrontier.empty (frontier st) then
    Done st (Raise (Exception "no solution"))
  else
    match StackFrontier.remove (frontier st) with
    | Raise e => Done st (Raise e)
    | Ok (node, f) =>
        let n := run_num_explored st + 1 in
        match goal m with
        | None => Done (mkRun f (run_explored st) n) (Raise AttributeError)
        | Some g =>
            if bool_decide (state node = g) then
              Done (mkRun f (run_explored st) n) (Ok (reconstruct node))
            else
              let ex := {[ state node ]} ∪ run_explored st in
              match neighbors m (state node) with
              | Raise e => Done (mkRun f ex n) (Raise e)
              | Ok nbrs => Again (mkRun (add_children node ex nbrs f) ex n)
              end
        end
    end.

(** The [while True] loop; [None] only when [fuel] passes did not suffice. *)
Fixpoint loop (fuel : nat) (m : Maze) (st : Run) : option (Run * Result Solution) :=
  match fuel with
  | O => None
  | S k =>
      match step m st with
      | Done st' r => Some (st', r)
      | Again st' => loop k m st'
      end
  end.

Definition set_run (m : Maze) (st : Run) : Maze :=
  {| height := height m; width := width m; walls := walls m;
     start := start m; goal := goal m; solution := solution m;
     num_explored := Some (run_num_explored st);
     explored := Some (run_explored st) |}.

Definition set_solution (m : Maze) (sol : Solution) : Maze :=
  {| height := height m; width := width m; walls := walls m;
     start := start m; goal := goal m; solution := Some sol;
     num_explored := num_explored m; explored := explored m |}.

(** The state in which the loop is entered: the root node in a fresh
    frontier, nothing explored. *)
Definition initial_run (s : State) : Run :=
  mkRun (StackFrontier.add StackFrontier.init (mkNode s None None)) ∅ 0.

(** [Maze.solve]: the object after the call and how the call ended
    ([Ok tt] is the plain [return]). *)
Definition solve (fuel : nat) (m : Maze) : option (Maze * Result unit) :=
  let m0 := {| height := height m; width := width m; walls := walls m;
               start := start m; goal := goal m; solution := solution m;
               num_explored := Some 0; explored := explored m |} in
  match start m with
  | None => Some (m0, Raise AttributeError)
  | Some s =>
      match loop fuel m (initial_run s) with
      | None => None
      | Some (st, Ok sol) => Some (set_solution (set_run m st) sol, Ok tt)
      | Some (st, Raise e) => Some (set_run m st, Raise e)
      end
  end.

(** [main], console output left out: how the program ends on the text of
    the maze file. *)
Definition main (fuel : nat) (contents : Text) : option (Result unit) :=
  match Maze_init contents with
  | Raise e => Some (Raise e)
  | Ok maze =>
      match solve fuel maze with
      | None => None
      | Some (_, r) => Some r
      end
  end.

(** ** Vocabulary of the statements *)

(** The coordinate delta of each action, as written in [candidates]. *)
Definition delta (a : Action) : Z * Z :=
  match a with
  | up => (-1, 0)
  | down => (1, 0)
  | left => (0, -1)
  | right => (0, 1)
  end.

Definition shift (s : State) (a : Action) : State :=
  (fst s + fst (delta a), snd s + snd (delta a)).

Definition in_bounds (m : Maze) (s : State) : bool :=
  (0 <=? fst s) && (fst s <? height m) && (0 <=? snd s) && (snd s <? width m).

(** The entry of the wall matrix at a cell, [false] where there is none. *)
Definition wall_at (m : Maze) (s : State) : bool :=
  match nth_error (walls m) (Z.to_nat (fst s)) with
  | Some row =>
      match nth_error row (Z.to_nat (snd s)) with
      | Some b => b
      | None => false
      end
  | None => false
  end.

Definition open_cell (m : Maze) (s : State) : bool :=
  in_bounds m s && negb (wall_at m s).

(** The wall matrix has [height] rows of [width] entries each. *)
Definition rectangular (m : Maze) : Prop :=
  Z.of_nat (length (walls m)) = height m /\
  Forall (fun row => Z.of_nat (length row) = width m) (walls m).

(** The moves [neighbors] is expected to return. *)
Definition open_moves (m : Maze) (s : State) : list (Action * State) :=
  List.filter (fun p => open_cell m (snd p)) (candidates s).

(** [add] called on each node of a sequence in turn. *)
Definition add_all (f : StackFrontier.t) (nodes : list Node) : StackFrontier.t :=
  fold_left StackFrontier.add nodes f.

(** What [solve] relies on: a rectangular wall matrix, and [start] and
    [goal] assigned to two distinct open cells of it.  [Maze_init] only
    builds such mazes (lemma [Maze_init_wf]). *)
Record WfMaze (m : Maze) (s0 g : State) : Prop := {
  wf_rect : rectangular m;
  wf_start : start m = Some s0;
  wf_goal : goal m = Some g;
  wf_start_open : open_cell m s0 = true;
  wf_goal_open : open_cell m g = true;
  wf_distinct : s0 <> g
}.

(** One move of the state graph, and the states reachable from [start]. *)
Definition edge (m : Maze) (s t : State) : Prop :=
  exists a l, neighbors m s = Ok l /\ In (a, t) l.

Definition reachable (m : Maze) (t : State) : Prop :=
  exists s, start m = Some s /\ rtc (edge m) s t.

(** All coordinates of the grid. *)
Definition cells (m : Maze) : gset State :=
  list_to_set
    (flat_map (fun i => map (fun j => (Z.of_nat i, Z.of_nat j)) (range (width m)))
       (range (height m))).

(** Nodes as [solve] builds them: the root at the start state, or a child
    made from one of the moves open at its parent's state. *)
Inductive chain (m : Maze) (s0 : State) : Node -> Prop :=
| chain_root : chain m s0 (mkNode s0 None None)
| chain_child p a s :
    chain m s0 p -> In (a, s) (open_moves m (state p)) ->
    chain m s0 (mkNode s (Some p) (Some a)).

(** The cells visited from [from] by a sequence of actions. *)
Fixpoint walk (from : State) (acts : list Action) : list State :=
  match acts with
  | [] => []
  | a :: rest => shift from a :: walk (shift from a) rest
  end.

(** *** Observing a run *)

(** The calls [solve] makes on its frontier, by the state of the node. *)
Inductive Event : Type :=
| Added (s : State)
| Removed (s : State).

Definition added (log : list Event) : list State :=
  flat_map (fun e => match e with Added s => [s] | Removed _ => [] end) log.

Definition removed (log : list Event) : list State :=
  flat_map (fun e => match e with Removed s => [s] | Added _ => [] end) log.

(** The nodes the [for] loop adds (lemma [add_children_app]). *)
Fixpoint children_of (node : Node) (ex : gset State)
    (nbrs : list (Action * State)) (f : StackFrontier.t) : list Node :=
  match nbrs with
  | [] => []
  | (a, s) :: rest =>
      if negb (StackFrontier.contains_state f s) && bool_decide (s ∉ ex)
      then mkNode s (Some node) (Some a)
           :: children_of node ex rest
                (StackFrontier.add f (mkNode s (Some node) (Some a)))
      else children_of node ex rest f
  end.

(** The frontier calls of one pass of the loop started in [st]. *)
Definition step_events (m : Maze) (st : Run) : list Event :=
  match StackFrontier.remove (frontier st) with
  | Raise _ => []
  | Ok (node, f) =>
      Removed (state node) ::
      match goal m with
      | None => []
      | Some g =>
          if bool_decide (state node = g) then []
          else match neighbors m (state node) with
               | Raise _ => []
               | Ok nbrs =>
                   map (fun c => Added (state c))
                     (children_of node ({[ state node ]} ∪ run_explored st) nbrs f)
               end
      end
  end.

(** The frontier calls of the loop, in order. *)
Fixpoint loop_events (fuel : nat) (m : Maze) (st : Run) : list Event :=
  match fuel with
  | O => []
  | S k =>
      step_events m st ++
      match step m st with
      | Done _ _ => []
      | Again st' => loop_events k m st'
      end
  end.

(** The frontier calls of [solve]: the root is added before the loop. *)
Definition solve_events (fuel : nat) (m : Maze) : list Event :=
  match start m with
  | None => []
  | Some s =>
      Added s :: loop_events fuel m (initial_run s)
  end.

(** The state at the head of the loop after [k] full passes. *)
Fixpoint after (k : nat) (m : Maze) (st : Run) : option Run :=
  match k with
  | O => Some st
  | S k' =>
      match step m st with
      | Done _ _ => None
      | Again st' => after k' m st'
      end
  end.

(** The loop invariant of [solve], over the frontier calls [log] made so
    far and the state [st] at the head of the loop. *)
Record Inv (m : Maze) (s0 g : State) (log : list Event) (st : Run) : Prop := {
  inv_nodup : NoDup (map state (frontier st));
  inv_fresh : forall n, In n (frontier st) -> state n ∉ run_explored st;
  inv_goal : g ∉ run_explored st;
  inv_chain : forall n, In n (frontier st) -> chain m s0 n;
  inv_reach : forall s, s ∈ run_explored st -> reachable m s;
  inv_count : run_num_explored st = Z.of_nat (size (run_explored st));
  inv_closed : forall s a t,
    s ∈ run_explored st -> In (a, t) (open_moves m s) ->
    t ∈ run_explored st \/ In t (map state (frontier st));
  inv_start : s0 ∈ run_explored st \/ In s0 (map state (frontier st));
  inv_added_nodup : NoDup (added log);
  inv_added : forall s,
    In s (added log) <-> s ∈ run_explored st \/ In s (map state (frontier st));
  inv_removed_nodup : NoDup (removed log);
  inv_removed : forall s, In s (removed log) <-> s ∈ run_explored st;
  inv_removed_len : length (removed log) = size (run_explored st)
}.

(** What holds when the loop is left in state [st] with result [r], after
    the frontier calls [log]. *)
Record Post (m : Maze) (s0 g : State) (log : list Event) (st : Run)
    (r : Result Solution) : Prop := {
  post_added_nodup : NoDup (added log);
  post_removed_nodup : NoDup (removed log);
  post_added_reach : forall s, In s (added log) -> reachable m s;
  post_removed_reach : forall s, In s (removed log) -> reachable m s;
  post_removed_len : Z.of_nat (length (removed log)) = run_num_explored st;
  post_goal : g ∉ run_explored st;
  post_outcome :
    (r = Raise (Exception "no solution") /\ ~ reachable m g /\
     run_num_explored st = Z.of_nat (size (run_explored st))) \/
    (exists node, r = Ok (reconstruct node) /\ chain m s0 node /\
       state node = g /\
       run_num_explored st = Z.of_nat (size (run_explored st)) + 1)
}.

(** *** Two small mazes *)

(** The maze of the text [AB]: the goal is right of the start. *)
Definition maze_AB : Maze :=
  mkMaze 1 2 [[false; false]] (Some (0, 0)) (Some (0, 1)) None None None.

(** The maze of the text [A#B]: a wall between start and goal. *)
Definition maze_enclosed : Maze :=
  mkMaze 1 3 [[false; true; false]] (Some (0, 0)) (Some (0, 2)) None None None.

(** *** Reading the parsed text *)

(** The wall flag the parser gives to the character at [(i, j)]. *)
Definition cell_wall (contents : list Text) (i j : nat) : bool :=
  match char_at contents i j with
  | Some c => N.eqb c chr_hash
  | None => false
  end.

(** Occurrences of a character in a list of lines. *)
Definition count_in_lines (c : N) (lines : list Text) : Z :=
  fold_right (fun line acc => count c line + acc) 0 lines.

(** What one cell does to the attribute fed by marker [c] ([start] for [A],
    [goal] for [B]), and the value left by scanning rows [rows] of width [w]. *)
Definition mark (c : N) (contents : list Text) (i j : nat)
    (cur : option State) : option State :=
  match char_at contents i j with
  | Some x => if N.eqb x c then Some (Z.of_nat i, Z.of_nat j) else cur
  | None => cur
  end.

Definition scan_row (c : N) (contents : list Text) (w : Z) (i : nat)
    (cur : option State) : option State :=
  fold_left (fun a j => mark c contents i j a) (range w) cur.

Definition scan (c : N) (contents : list Text) (w : Z) (rows : list nat)
    (cur : option State) : option State :=
  fold_left (fun a i => scan_row c contents w i a) rows cur.

(** The maze object [Maze_init] builds from the lines and the width
    (lemma [Maze_init_cases]). *)
Definition parsed_maze (contents : list Text) (w : Z) : Maze :=
  let h := Z.of_nat (length contents) in
  {| height := h; width := w;
     walls := map (fun i => map (cell_wall contents i) (range w)) (range h);
     start := scan chr_A contents w (range h) None;
     goal := scan chr_B contents w (range h) None;
     solution := None; num_explored := None; explored := None |}.

(** A text with lines of unequal length, and its maze. *)
Definition ragged_text : Text :=
  codes "A #" ++ [chr_LF] ++ codes "  #" ++ [chr_LF] ++ codes " B".

Definition ragged_maze : Maze :=
  mkMaze 3 3 [[false; false; true]; [false; false; true]; [false; false; false]]
    (Some (0, 0)) (Some (2, 1)) None None None.

(** The two exceptions [Maze_init] raises on a malformed text. *)
Definition format_error (e : Exn) : Prop :=
  e = Exception "maze must have exactly one start point" \/
  e = Exception "maze must have exactly one goal".

(** ** Rendering and the program *)

Definition glyph_wall : N := 9608%N.
Definition glyph_path : N := 42%N.
Definition glyph_open : N := 32%N.

(** The glyph [print] writes for the cell [(i, j)] whose wall flag is
    [col]; [sol] is the local [solution], the cell list or [None].  The
    attributes [start] and [goal] are read only for a cell that is not a
    wall, and [goal] only when the cell is not the start. *)
Definition print_cell (m : Maze) (sol : option (list State)) (i j : nat)
    (col : bool) : Result N :=
  if col then Ok glyph_wall
  else
    match start m with
    | None => Raise AttributeError
    | Some s =>
        if bool_decide ((Z.of_nat i, Z.of_nat j) = s) then Ok chr_A
        else
          match goal m with
          | None => Raise AttributeError
          | Some g =>
              if bool_decide ((Z.of_nat i, Z.of_nat j) = g) then Ok chr_B
              else
                match sol with
                | Some cs =>
                    if bool_decide ((Z.of_nat i, Z.of_nat j) ∈ cs)
                    then Ok glyph_path else Ok glyph_open
                | None => Ok glyph_open
                end
          end
    end.

(** The inner loop [for j, col in enumerate(row)], writing to [out]. *)
Fixpoint print_row (m : Maze) (sol : option (list State)) (i j : nat)
    (row : list bool) (out : Text) : Text * Result unit :=
  match row with
  | [] => (out, Ok tt)
  | col :: rest =>
      match print_cell m sol i j col with
      | Ok c => print_row m sol i (S j) rest (out ++ [c])
      | Raise e => (out, Raise e)
      end
  end.

(** The outer loop [for i, row in enumerate(self.walls)]; the [print()]
    after each row writes a line feed. *)
Fixpoint print_rows (m : Maze) (sol : option (list State)) (i : nat)
    (rows : list (list bool)) (out : Text) : Text * Result unit :=
  match rows with
  | [] => (out, Ok tt)
  | row :: rest =>
      match print_row m sol i 0 row out with
      | (out', Ok _) => print_rows m sol (S i) rest (out' ++ [chr_LF])
      | (out', Raise e) => (out', Raise e)
      end
  end.

(** [Maze.print]: what has been written to the console and how the call
    ended. *)
Definition Maze_print (m : Maze) : Text * Result unit :=
  let sol := match solution m with
             | Some (_, cs) => Some cs
             | None => None
             end in
  match print_rows m sol 0 (walls m) [chr_LF] with
  | (out, Ok _) => (out ++ [chr_LF], Ok tt)
  | (out, Raise e) => (out, Raise e)
  end.

(** [main] with its console output. *)
Definition main_io (fuel : nat) (contents : Text) : option (Text * Result unit) :=
  match Maze_init contents with
  | Raise e => Some ([], Raise e)
  | Ok maze =>
      let out1 := codes "Maze:" ++ [chr_LF] in
      match Maze_print maze with
      | (o, Raise e) => Some (out1 ++ o, Raise e)
      | (o, Ok _) =>
          let out2 := out1 ++ o ++ codes "Solving..." ++ [chr_LF] in
          match solve fuel maze with
          | None => None
          | Some (_, Raise e) => Some (out2, Raise e)
          | Some (maze', Ok _) =>
              let out3 := out2 ++ codes "Solution:" ++ [chr_LF] in
              let '(o', r) := Maze_print maze' in
              Some (out3 ++ o', r)
          end
      end
  end.

(** The outcome of [open(filename)] followed by [f.read()]: the text of
    the file, or the exception these calls raise ([FileNotFoundError] for
    one), which is none of [Exn] and is kept by the name of its class. *)
Inductive FileRead : Type :=
| ReadText (contents : Text)
| ReadRaises (cls : string).

(** How the program ends. *)
Inductive Ending : Type :=
| EndsNormally
| EndsBy (e : Exn)
| EndsByRead (cls : string).

(** [main] on what reading the maze file gives.  [Maze("maze1.txt")] is the
    first statement: an exception of [open] or [read] leaves [main] before
    anything is written. *)
Definition main_file (fuel : nat) (file : FileRead) : option (Text * Ending) :=
  match file with
  | ReadRaises cls => Some ([], EndsByRead cls)
  | ReadText contents =>
      match main_io fuel contents with
      | None => None
      | Some (out, Ok _) => Some (out, EndsNormally)
      | Some (out, Raise e) => Some (out, EndsBy e)
      end
  end.

(** *** Counting the passes of the loop *)

(** The number of times the body of [while True] is entered, the pass that
    leaves the loop included. *)
Fixpoint loop_passes (fuel : nat) (m : Maze) (st : Run) : option nat :=
  match fuel with
  | O => None
  | S k =>
      match step m st with
      | Done _ _ => Some 1%nat
      | Again st' => option_map S (loop_passes k m st')
      end
  end.

Definition solve_passes (fuel : nat) (m : Maze) : option nat :=
  match start m with
  | None => Some 0%nat
  | Some s => loop_passes fuel m (initial_run s)
  end.

(** *** Vocabulary of the further statements *)

(** [remove] called up to [n] times in a row: the nodes it returns. *)
Fixpoint drain (remove : StackFrontier.t -> Result (Node * StackFrontier.t))
    (n : nat) (f : StackFrontier.t) : list Node :=
  match n with
  | O => []
  | S k =>
      match remove f with
      | Ok (node, f') => node :: drain remove k f'
      | Raise _ => []
      end
  end.

Definition opposite (a : Action) : Action :=
  match a with
  | up => down
  | down => up
  | left => right
  | right => left
  end.

(** The states from a node back to the root, the node's own first. *)
Fixpoint path_states (node : Node) : list State :=
  match node with
  | mkNode s (Some p) _ => s :: path_states p
  | mkNode s None _ => [s]
  end.

(** The states strictly above a node on its way to the root. *)
Definition ancestors (node : Node) : list State :=
  match parent node with
  | Some p => path_states p
  | None => []
  end.

(** The glyph of a cell by priority: wall, start, goal, path, open. *)
Definition glyph (m : Maze) (p : State) : N :=
  if wall_at m p then glyph_wall
  else if bool_decide (start m = Some p) then chr_A
  else if bool_decide (goal m = Some p) then chr_B
  else match solution m with
       | Some (_, cs) => if bool_decide (p ∈ cs) then glyph_path else glyph_open
       | None => glyph_open
       end.

(** The picture of the maze: an empty line, one line of [width] glyphs per
    row, an empty line. *)
Definition picture (m : Maze) : Text :=
  [chr_LF] ++
  flat_map (fun i => map (fun j => glyph m (Z.of_nat i, Z.of_nat j))
                       (range (width m)) ++ [chr_LF])
           (range (height m)) ++
  [chr_LF].

(** The coordinates of the grid, row by row. *)
Definition grid_list (m : Maze) : list State :=
  flat_map
    (fun i => map (fun j => ((Z.of_nat i, Z.of_nat j) : State)) (range (width m)))
    (range (height m)).

(** Two maze objects with the same grid, start and goal. *)
Definition same_grid (m1 m2 : Maze) : Prop :=
  height m1 = height m2 /\ width m1 = width m2 /\ walls m1 = walls m2 /\
  start m1 = start m2 /\ goal m1 = goal m2.

(** ** The model on concrete inputs *)

Example splitlines_boundaries :
  splitlines (codes "ab" ++ [chr_CR; chr_LF] ++ [chr_LF] ++ codes "c" ++ [chr_CR])
  = [codes "ab"; []; codes "c"].
Proof. reflexivity. Qed.

Example Maze_init_ragged : Maze_init ragged_text = Ok ragged_maze.
Proof. reflexivity. Qed.

Example Maze_init_two_goals :
  Maze_init (codes "ABB") = Raise (Exception "maze must have exactly one goal").
Proof. reflexivity. Qed.

Example neighbors_ragged :
  neighbors ragged_maze (1, 1) = Ok [(up, (0, 1)); (down, (2, 1)); (left, (1, 0))].
Proof. reflexivity. Qed.

Example solve_ragged :
  option_map (fun '(m, r) => (solution m, num_explored m, r)) (solve 5 ragged_maze)
  = Some (Some ([Some right; Some down; Some down], [(0, 1); (1, 1); (2, 1)]),
          Some 4, Ok tt).
Proof. vm_compute. reflexivity. Qed.

Example solve_ragged_events :
  solve_events 5 ragged_maze
  = [Added (0, 0); Removed (0, 0); Added (1, 0); Added (0, 1);
     Removed (0, 1); Added (1, 1);
     Removed (1, 1); Added (2, 1);
     Removed (2, 1)].
Proof. vm_compute. reflexivity. Qed.

Example solve_out_of_fuel : solve 3 ragged_maze = None.
Proof. vm_compute. reflexivity. Qed.

(** ** Frontier facts *)

Lemma add_all_app f nodes : add_all f nodes = f ++ nodes.
Proof.
  unfold add_all.
  revert f; induction nodes as [|n nodes IH]; intros f; simpl.
  - now rewrite app_nil_r.
  - rewrite IH. unfold StackFrontier.add. now rewrite <- app_assoc.
Qed.

Lemma stack_remove_snoc f node :
  StackFrontier.remove (f ++ [node]) = Ok (node, f).
Proof.
  unfold StackFrontier.remove, StackFrontier.empty.
  rewrite length_app; simpl.
  replace (length f + 1 =? 0)%nat with false
    by (symmetry; apply Nat.eqb_neq; lia).
  now rewrite last_snoc, removelast_last.
Qed.

Lemma stack_empty_nil (f : StackFrontier.t) :
  StackFrontier.empty f = true <-> f = [].
Proof.
  unfold StackFrontier.empty. destruct f; simpl; split; congruence.
Qed.

Lemma contains_state_In f s :
  StackFrontier.contains_state f s = true <-> In s (map state f).
Proof.
  unfold StackFrontier.contains_state. rewrite existsb_exists, in_map_iff.
  split; intros [n [H1 H2]]; exists n.
  - apply bool_decide_eq_true in H2. tauto.
  - split; [tauto|]. apply bool_decide_eq_true. tauto.
Qed.

(** C6: after the adds A1..An on a fresh frontier and no remove in between,
    the stack frontier's [remove] returns An, the most recently added node
    (this half holds on top of any earlier content [f0] as well), and the
    queue frontier's [remove] returns A1, the earliest one. *)
Theorem frontier_remove_order (a1 : Node) (rest : list Node) (f0 : StackFrontier.t) :
  StackFrontier.remove (add_all StackFrontier.init (a1 :: rest))
    = Ok (List.last rest a1, removelast (a1 :: rest)) /\
  StackFrontier.remove (add_all f0 (a1 :: rest))
    = Ok (List.last rest a1, f0 ++ removelast (a1 :: rest)) /\
  QueueFrontier.remove (add_all QueueFrontier.init (a1 :: rest))
    = Ok (a1, rest).
Proof.
  assert (Hsplit : a1 :: rest = removelast (a1 :: rest) ++ [List.last rest a1]).
  { rewrite (app_removelast_last a1) at 1 by discriminate.
    f_equal. f_equal. destruct rest; [reflexivity|]. reflexivity. }
  assert (Hst : forall f, StackFrontier.remove (add_all f (a1 :: rest))
            = Ok (List.last rest a1, f ++ removelast (a1 :: rest))).
  { intros f. rewrite add_all_app. rewrite Hsplit at 1.
    rewrite app_assoc. apply stack_remove_snoc. }
  split; [apply (Hst [])|]. split; [apply Hst|].
  rewrite add_all_app. reflexivity.
Qed.

(** ** Neighbours *)

Lemma candidates_shift s :
  candidates s = map (fun a => (a, shift s a)) [up; down; left; right].
Proof.
  destruct s as [r c]. unfold candidates, shift; simpl.
  repeat f_equal; lia.
Qed.

Lemma py_index_nth {A} (l : list A) (i : Z) :
  0 <= i -> i < Z.of_nat (length l) ->
  exists a, nth_error l (Z.to_nat i) = Some a /\ py_index l i = Ok a.
Proof.
  intros H0 H1. unfold py_index.
  destruct (Z.leb_spec 0 i); [|lia].
  destruct (Z.ltb_spec i 0); [lia|].
  destruct (nth_error l (Z.to_nat i)) as [a|] eqn:E.
  - now exists a.
  - apply nth_error_None in E. lia.
Qed.

Lemma in_bounds_iff m s :
  in_bounds m s = true <->
  0 <= fst s < height m /\ 0 <= snd s < width m.
Proof.
  unfold in_bounds. rewrite !andb_true_iff, !Z.leb_le, !Z.ltb_lt. lia.
Qed.

Lemma neighbors_loop_filter m (Hrect : rectangular m) cands result :
  neighbors_loop m cands result
  = Ok (result ++ List.filter (fun p => open_cell m (snd p)) cands).
Proof.
  revert result. induction cands as [|[a [r c]] cands IH]; intros result; simpl.
  - now rewrite app_nil_r.
  - unfold open_cell at 1. simpl snd.
    change ((0 <=? r) && (r <? height m) && (0 <=? c) && (c <? width m))
      with (in_bounds m (r, c)).
    destruct (in_bounds m (r, c)) eqn:Hb; simpl.
    + apply in_bounds_iff in Hb. simpl in Hb. destruct Hb as [Hr Hc].
      destruct Hrect as [Hh Hw].
      destruct (py_index_nth (walls m) r) as [wrow [Hn ->]]; [lia|lia|].
      simpl.
      assert (Hlen : Z.of_nat (length wrow) = width m).
      { rewrite Forall_forall in Hw. apply Hw.
        apply list_elem_of_In. eapply nth_error_In; eauto. }
      destruct (py_index_nth wrow c) as [w [Hn' ->]]; [lia|lia|].
      simpl. unfold wall_at; simpl. rewrite Hn, Hn'.
      destruct w; simpl; rewrite IH; [reflexivity|].
      now rewrite <- app_assoc.
    + apply IH.
Qed.

Lemma neighbors_open_moves m (Hrect : rectangular m) s :
  neighbors m s = Ok (open_moves m s).
Proof. unfold neighbors. now rewrite neighbors_loop_filter. Qed.

Lemma open_moves_shift m s a t :
  In (a, t) (open_moves m s) -> t = shift s a /\ open_cell m t = true.
Proof.
  unfold open_moves. rewrite filter_In, candidates_shift, in_map_iff.
  intros [[a' [E _]] Ho]. inversion E; subst. auto.
Qed.

Lemma shift_injective s a b : shift s a = shift s b -> a = b.
Proof.
  destruct s as [r c], a, b; unfold shift; simpl; intros E;
    inversion E; try reflexivity; lia.
Qed.

(** C3: on a grid whose wall matrix is rectangular, [neighbors] on any state
    (in bounds or not) returns, without raising, the candidates
    up, down, left, right (deltas (-1,0), (1,0), (0,-1), (0,1)) that are in
    bounds and not walls, in that order; it is a function of the maze and the
    state and returns nothing but that list. *)
Theorem neighbors_spec (m : Maze) (s : State) :
  rectangular m ->
  neighbors m s
  = Ok (List.filter
          (fun p => in_bounds m (snd p) && negb (wall_at m (snd p)))
          (map (fun a => (a, (fst s + fst (delta a), snd s + snd (delta a))))
               [up; down; left; right])) /\
  delta up = (-1, 0) /\ delta down = (1, 0) /\
  delta left = (0, -1) /\ delta right = (0, 1).
Proof.
  intros Hrect. split; [|repeat split].
  rewrite neighbors_open_moves by assumption.
  unfold open_moves. now rewrite candidates_shift.
Qed.

(** The theorem at a 2x2 maze with one wall. *)
Lemma neighbors_spec_witness :
  neighbors (mkMaze 2 2 [[false; true]; [false; false]]
               (Some (0, 0)) (Some (1, 1)) None None None) (1, 0)
  = Ok [(up, (0, 0)); (right, (1, 1))].
Proof.
  refine (proj1 (neighbors_spec _ (1, 0) _)).
  split; [reflexivity | repeat constructor].
Defined.

(** ** The children added by one expansion *)

Lemma add_children_app node ex nbrs f :
  add_children node ex nbrs f = f ++ children_of node ex nbrs f.
Proof.
  revert f. induction nbrs as [|[a s] nbrs IH]; intros f; simpl.
  - now rewrite app_nil_r.
  - destruct (negb (StackFrontier.contains_state f s) && bool_decide (s ∉ ex)).
    + rewrite IH. unfold StackFrontier.add. now rewrite <- app_assoc.
    + apply IH.
Qed.

Lemma children_of_spec m s0 node ex nbrs :
  chain m s0 node ->
  (forall a t, In (a, t) nbrs -> In (a, t) (open_moves m (state node))) ->
  forall f, NoDup (map state f) ->
  let cs := children_of node ex nbrs f in
  NoDup (map state (f ++ cs)) /\
  (forall c, In c cs ->
     (state c ∉ ex) /\ chain m s0 c /\
     exists a, In (a, state c) nbrs /\ c = mkNode (state c) (Some node) (Some a)) /\
  (forall a t, In (a, t) nbrs -> t ∈ ex \/ In t (map state (f ++ cs))).
Proof.
  intros Hnode. induction nbrs as [|[a s] nbrs IH]; intros Hsub f Hnd; simpl.
  - rewrite app_nil_r. split; [assumption|]. split; intros; contradiction.
  - assert (Hsub' : forall a t, In (a, t) nbrs ->
                      In (a, t) (open_moves m (state node)))
      by (intros; apply Hsub; now right).
    destruct (StackFrontier.contains_state f s) eqn:Hc; simpl.
    + destruct (IH Hsub' f Hnd) as (H1 & H2 & H3).
      split; [assumption|]. split.
      * intros c Hin. destruct (H2 c Hin) as (? & ? & a' & ? & ?).
        repeat split; try assumption. exists a'. split; [now right | assumption].
      * intros a' t [E|Hin]; [|eauto].
        inversion E; subst. right. rewrite map_app, in_app_iff. left.
        now apply contains_state_In.
    + destruct (bool_decide (s ∉ ex)) eqn:Hex.
      * apply bool_decide_eq_true in Hex.
        set (c0 := mkNode s (Some node) (Some a)).
        assert (Hnd' : NoDup (map state (StackFrontier.add f c0))).
        { unfold StackFrontier.add. rewrite map_app. simpl.
          apply NoDup_app. split; [assumption|]. split.
          - intros x Hx Hx'. apply list_elem_of_In in Hx, Hx'.
            destruct Hx' as [<-|[]].
            apply contains_state_In in Hx. congruence.
          - apply NoDup_singleton. }
        destruct (IH Hsub' _ Hnd') as (H1 & H2 & H3).
        unfold StackFrontier.add in H1, H3. rewrite <- app_assoc in H1, H3.
        simpl in H1, H3.
        split; [assumption|]. split.
        -- intros c [<-|Hin].
           ++ simpl. repeat split; try assumption.
              ** apply chain_child; [assumption|]. apply Hsub. now left.
              ** exists a. split; [now left | reflexivity].
           ++ destruct (H2 c Hin) as (? & ? & a' & ? & ?).
              repeat split; try assumption. exists a'. split; [now right | assumption].
        -- intros a' t [E|Hin]; [|eauto].
           inversion E; subst. right. rewrite map_app, in_app_iff. right.
           now left.
      * apply bool_decide_eq_false in Hex.
        destruct (IH Hsub' f Hnd) as (H1 & H2 & H3).
        split; [assumption|]. split.
        -- intros c Hin. destruct (H2 c Hin) as (? & ? & a' & ? & ?).
           repeat split; try assumption. exists a'. split; [now right | assumption].
        -- intros a' t [E|Hin]; [|eauto].
           inversion E; subst. left.
           destruct (decide (t ∈ ex)); [assumption | contradiction].
Qed.

(** ** Event logs *)

Lemma added_app l1 l2 : added (l1 ++ l2) = added l1 ++ added l2.
Proof. unfold added. apply flat_map_app. Qed.

Lemma removed_app l1 l2 : removed (l1 ++ l2) = removed l1 ++ removed l2.
Proof. unfold removed. apply flat_map_app. Qed.

Lemma added_children (cs : list Node) :
  added (map (fun c => Added (state c)) cs) = map state cs.
Proof. induction cs; simpl; congruence. Qed.

Lemma removed_children (cs : list Node) :
  removed (map (fun c => Added (state c)) cs) = [].
Proof. induction cs; simpl; congruence. Qed.

(** ** One pass of the loop *)

Lemma step_empty m st :
  frontier st = [] ->
  step m st = Done st (Raise (Exception "no solution")) /\ step_events m st = [].
Proof.
  intros E. unfold step, step_events. rewrite E. simpl. auto.
Qed.

Lemma step_goal m g st f node :
  goal m = Some g -> frontier st = f ++ [node] -> state node = g ->
  step m st
  = Done (mkRun f (run_explored st) (run_num_explored st + 1))
         (Ok (reconstruct node)) /\
  step_events m st = [Removed g].
Proof.
  intros Hg E Hn. unfold step, step_events.
  rewrite E, stack_remove_snoc, Hg.
  replace (StackFrontier.empty (f ++ [node])) with false.
  2:{ symmetry. apply not_true_is_false. rewrite stack_empty_nil.
      destruct f; discriminate. }
  rewrite bool_decide_eq_true_2 by assumption. now subst.
Qed.

Lemma step_expand m g st f node :
  rectangular m -> goal m = Some g ->
  frontier st = f ++ [node] -> state node <> g ->
  let ex := {[ state node ]} ∪ run_explored st in
  let cs := children_of node ex (open_moves m (state node)) f in
  step m st = Again (mkRun (f ++ cs) ex (run_num_explored st + 1)) /\
  step_events m st = Removed (state node) :: map (fun c => Added (state c)) cs.
Proof.
  intros Hrect Hg E Hn ex cs. unfold step, step_events.
  rewrite E, stack_remove_snoc, Hg.
  replace (StackFrontier.empty (f ++ [node])) with false.
  2:{ symmetry. apply not_true_is_false. rewrite stack_empty_nil.
      destruct f; discriminate. }
  rewrite bool_decide_eq_false_2 by assumption.
  rewrite neighbors_open_moves by assumption.
  now rewrite add_children_app.
Qed.

Lemma frontier_cases (f : StackFrontier.t) :
  f = [] \/ exists f' node, f = f' ++ [node].
Proof.
  destruct f as [|n f] using rev_ind; [now left | right; eauto].
Qed.

(** ** Reachability *)

Lemma chain_reachable m s0 node :
  rectangular m -> start m = Some s0 ->
  chain m s0 node -> reachable m (state node).
Proof.
  intros Hrect Hs. induction 1 as [|p a s Hp IH Hin].
  - exists s0. split; [assumption | apply rtc_refl].
  - destruct IH as (s1 & Hs1 & Hrtc). exists s1. split; [assumption|].
    eapply rtc_r; [eassumption|]. exists a, (open_moves m (state p)).
    split; [now apply neighbors_open_moves | assumption].
Qed.

(** ** The invariant *)

Section Invariant.
Variables (m : Maze) (s0 g : State).
Hypothesis Hwf : WfMaze m s0 g.

Lemma Inv_initial : Inv m s0 g [Added s0] (initial_run s0).
Proof.
  unfold initial_run, StackFrontier.add, StackFrontier.init. simpl.
  constructor; simpl.
  - apply NoDup_singleton.
  - intros n _. set_solver.
  - set_solver.
  - intros n [<-|[]]. apply chain_root.
  - intros s Hs. set_solver.
  - reflexivity.
  - intros s a t Hs. set_solver.
  - right. now left.
  - apply NoDup_singleton.
  - intros s. split; [intros [<-|[]]; right; now left|].
    intros [H|[<-|[]]]; [set_solver | now left].
  - apply NoDup_nil_2.
  - intros s. split; [intros [] | set_solver].
  - reflexivity.
Qed.

Lemma Inv_expand log st f node :
  Inv m s0 g log st ->
  frontier st = f ++ [node] -> state node <> g ->
  let ex := {[ state node ]} ∪ run_explored st in
  let cs := children_of node ex (open_moves m (state node)) f in
  Inv m s0 g
    (log ++ Removed (state node) :: map (fun c => Added (state c)) cs)
    (mkRun (f ++ cs) ex (run_num_explored st + 1)) /\
  size ex = S (size (run_explored st)).
Proof.
  intros HI E Hng ex cs.
  destruct Hwf as [Hrect Hstart Hgoal _ _ _].
  destruct HI as [Ind Ifr Igoal Ich Ireach Icnt Icl Ist Iand Iadd Irnd Irem Irlen].
  rewrite E in *. rewrite map_app in Ind, Icl, Ist, Iadd. simpl in *.
  assert (Hnode_in : In node (f ++ [node])) by (apply in_app_iff; right; now left).
  assert (Hnode_fresh : state node ∉ run_explored st) by now apply Ifr.
  assert (Hnode_chain : chain m s0 node) by now apply Ich.
  apply NoDup_app in Ind. destruct Ind as (Hndf & Hdisj & _).
  assert (Hnotf : ~ In (state node) (map state f)).
  { intros Hin. apply list_elem_of_In in Hin. apply (Hdisj _ Hin). now left. }
  destruct (children_of_spec m s0 node ex (open_moves m (state node))
              Hnode_chain (fun a t H => H) f Hndf) as (H1 & H2 & H3).
  fold cs in H1, H2, H3.
  assert (Hsize : size ex = S (size (run_explored st))).
  { unfold ex. rewrite size_union by set_solver. now rewrite size_singleton. }
  assert (Hcs_f : forall s, In s (map state cs) -> ~ In s (map state f)).
  { intros s Hs Hf. rewrite map_app in H1. apply NoDup_app in H1.
    destruct H1 as (_ & Hd & _). apply list_elem_of_In in Hf, Hs.
    exact (Hd _ Hf Hs). }
  assert (Hcs_ex : forall s, In s (map state cs) -> s ∉ ex).
  { intros s Hs. apply in_map_iff in Hs. destruct Hs as (c & <- & Hc).
    now apply H2. }
  split; [|assumption].
  constructor; simpl.
  - assumption.
  - intros n Hn. apply in_app_iff in Hn. destruct Hn as [Hn|Hn].
    + assert (state n ∉ run_explored st)
        by (apply Ifr, in_app_iff; now left).
      assert (state n <> state node).
      { intros Heq. apply Hnotf. rewrite <- Heq. now apply in_map. }
      set_solver.
    + now apply H2.
  - set_solver.
  - intros n Hn. apply in_app_iff in Hn. destruct Hn as [Hn|Hn].
    + apply Ich, in_app_iff. now left.
    + now apply H2.
  - intros s Hs. apply elem_of_union in Hs. destruct Hs as [Hs|Hs].
    + apply elem_of_singleton in Hs. subst s.
      now apply (chain_reachable m s0).
    + now apply Ireach.
  - rewrite Icnt, Hsize. lia.
  - intros s a t Hs Hin. apply elem_of_union in Hs. destruct Hs as [Hs|Hs].
    + apply elem_of_singleton in Hs. subst s. eauto.
    + destruct (Icl s a t Hs Hin) as [Ht|Ht]; [left; set_solver|].
      apply in_app_iff in Ht. destruct Ht as [Ht|[<-|[]]].
      * right. rewrite map_app, in_app_iff. now left.
      * left. set_solver.
  - destruct Ist as [Hs|Hs]; [left; set_solver|].
    apply in_app_iff in Hs. destruct Hs as [Hs|[<-|[]]].
    + right. rewrite map_app, in_app_iff. now left.
    + left. set_solver.
  - rewrite added_app. simpl. rewrite added_children.
    apply NoDup_app. split; [assumption|]. split.
    + intros s Hs Hs'. apply list_elem_of_In in Hs, Hs'.
      apply Iadd in Hs. destruct Hs as [Hs|Hs].
      * apply (Hcs_ex s Hs'). set_solver.
      * apply in_app_iff in Hs. destruct Hs as [Hs|[<-|[]]].
        -- exact (Hcs_f s Hs' Hs).
        -- apply (Hcs_ex _ Hs'). set_solver.
    + rewrite map_app in H1. apply NoDup_app in H1. tauto.
  - intros s. rewrite added_app. simpl. rewrite added_children.
    rewrite in_app_iff, Iadd, map_app, !in_app_iff. simpl.
    unfold ex. rewrite elem_of_union, elem_of_singleton.
    split; [intros [[?|[?|[?|[]]]]|?] | intros [[?|?]|[?|?]]]; auto.
  - rewrite removed_app. simpl. rewrite removed_children.
    apply NoDup_app. split; [assumption|]. split.
    + intros s Hs Hs'. apply list_elem_of_In in Hs.
      apply Irem in Hs. apply list_elem_of_In in Hs'.
      destruct Hs' as [<-|[]]. contradiction.
    + apply NoDup_singleton.
  - intros s. rewrite removed_app. simpl. rewrite removed_children.
    rewrite in_app_iff, Irem. simpl. unfold ex.
    rewrite elem_of_union, elem_of_singleton.
    split; [intros [?|[?|[]]] | intros [?|?]]; auto.
  - rewrite removed_app. simpl. rewrite removed_children.
    rewrite length_app, Irlen, Hsize. simpl. lia.
Qed.

Lemma Inv_again log st st' :
  Inv m s0 g log st -> step m st = Again st' ->
  Inv m s0 g (log ++ step_events m st) st' /\
  size (run_explored st') = S (size (run_explored st)) /\
  exists f node,
    frontier st = f ++ [node] /\ state node <> g /\
    frontier st'
    = f ++ children_of node ({[ state node ]} ∪ run_explored st)
             (open_moves m (state node)) f.
Proof.
  intros HI Hstep.
  destruct (frontier_cases (frontier st)) as [E|(f & node & E)].
  - destruct (step_empty m st E) as [Hs _]. congruence.
  - destruct (decide (state node = g)) as [Hg|Hg].
    + destruct (step_goal m g st f node (wf_goal _ _ _ Hwf) E Hg) as [Hs _].
      congruence.
    + destruct (step_expand m g st f node (wf_rect _ _ _ Hwf)
                  (wf_goal _ _ _ Hwf) E Hg) as [Hs He].
      rewrite Hs in Hstep. inversion Hstep; subst st'. rewrite He.
      destruct (Inv_expand log st f node HI E Hg) as [HI' Hsz].
      split; [assumption|]. split; [assumption|]. exists f, node. auto.
Qed.

Lemma Inv_reach_all log st :
  Inv m s0 g log st -> frontier st = [] ->
  forall t, reachable m t -> t ∈ run_explored st.
Proof.
  intros HI E t (s & Hs & Hrtc).
  rewrite (wf_start _ _ _ Hwf) in Hs. inversion Hs; subst s.
  revert t Hrtc. apply (rtc_ind_r (fun t => t ∈ run_explored st)).
  - destruct (inv_start _ _ _ _ _ HI) as [H|H]; [assumption|].
    rewrite E in H. contradiction.
  - intros x y Hxy Hedge IH. destruct Hedge as (a & l & Hn & Hin).
    rewrite (neighbors_open_moves _ (wf_rect _ _ _ Hwf)) in Hn.
    inversion Hn; subst l.
    destruct (inv_closed _ _ _ _ _ HI x a y IH Hin) as [H|H]; [assumption|].
    rewrite E in H. contradiction.
Qed.

Lemma Inv_log_reach log st :
  Inv m s0 g log st ->
  (forall s, In s (added log) -> reachable m s) /\
  (forall s, In s (removed log) -> reachable m s).
Proof.
  intros HI. split; intros s Hs.
  - apply (inv_added _ _ _ _ _ HI) in Hs. destruct Hs as [Hs|Hs].
    + now apply (inv_reach _ _ _ _ _ HI).
    + apply in_map_iff in Hs. destruct Hs as (n & <- & Hn).
      apply (chain_reachable m s0); [apply Hwf | apply Hwf|].
      now apply (inv_chain _ _ _ _ _ HI).
  - apply (inv_removed _ _ _ _ _ HI) in Hs.
    now apply (inv_reach _ _ _ _ _ HI).
Qed.

Lemma Inv_done log st st' r :
  Inv m s0 g log st -> step m st = Done st' r ->
  Post m s0 g (log ++ step_events m st) st' r /\
  ((frontier st = [] /\ r = Raise (Exception "no solution")) \/
   (exists f node, frontier st = f ++ [node] /\ state node = g /\
                   r = Ok (reconstruct node))).
Proof.
  intros HI Hstep.
  destruct (Inv_log_reach log st HI) as [Hra Hrr].
  destruct (frontier_cases (frontier st)) as [E|(f & node & E)].
  - destruct (step_empty m st E) as [Hs He].
    rewrite Hs in Hstep. inversion Hstep; subst st' r.
    rewrite He, app_nil_r. split; [|left; auto].
    constructor; try apply HI; try assumption.
    + rewrite (inv_removed_len _ _ _ _ _ HI). now rewrite (inv_count _ _ _ _ _ HI).
    + left. split; [reflexivity|]. split; [|apply HI].
      intros Hg. apply (inv_goal _ _ _ _ _ HI).
      now apply (Inv_reach_all log st HI E).
  - assert (Hin : In node (frontier st))
      by (rewrite E; apply in_app_iff; right; now left).
    assert (Hch : chain m s0 node) by now apply (inv_chain _ _ _ _ _ HI).
    destruct (decide (state node = g)) as [Hg|Hg].
    + destruct (step_goal m g st f node (wf_goal _ _ _ Hwf) E Hg) as [Hs He].
      rewrite Hs in Hstep. inversion Hstep; subst st' r.
      rewrite He. split; [|right; exists f, node; auto].
      assert (Hgr : reachable m g).
      { rewrite <- Hg. apply (chain_reachable m s0); (apply Hwf || assumption). }
      constructor; simpl.
      * rewrite added_app. simpl. rewrite app_nil_r. apply HI.
      * rewrite removed_app. simpl. apply NoDup_app.
        split; [apply HI|]. split; [|apply NoDup_singleton].
        intros s Hs' Hs''. apply list_elem_of_In in Hs', Hs''.
        destruct Hs'' as [<-|[]].
        apply (inv_removed _ _ _ _ _ HI) in Hs'.
        now apply (inv_goal _ _ _ _ _ HI).
      * intros s. rewrite added_app. simpl. rewrite app_nil_r. apply Hra.
      * intros s. rewrite removed_app, in_app_iff. simpl.
        intros [Hs'|[<-|[]]]; auto.
      * rewrite removed_app, length_app. simpl.
        rewrite (inv_removed_len _ _ _ _ _ HI), (inv_count _ _ _ _ _ HI). lia.
      * apply HI.
      * right. exists node. rewrite (inv_count _ _ _ _ _ HI). auto.
    + destruct (step_expand m g st f node (wf_rect _ _ _ Hwf)
                  (wf_goal _ _ _ Hwf) E Hg) as [Hs _].
      congruence.
Qed.

(** The loop ends within [size R + 1] passes, for every finite set [R]
    holding the reachable states; [I] is any further invariant and [Q]
    what it gives when the loop is left. *)
Lemma loop_total (R : gset State)
    (I : list Event -> Run -> Prop)
    (Q : list Event -> Run -> Result Solution -> Prop) :
  (forall s, reachable m s -> s ∈ R) ->
  (forall log st, Inv m s0 g log st -> I log st ->
     match step m st with
     | Again st' => I (log ++ step_events m st) st'
     | Done st' r => Q (log ++ step_events m st) st' r
     end) ->
  forall fuel log st,
    Inv m s0 g log st -> I log st ->
    (size R < fuel + size (run_explored st))%nat ->
    exists st' r,
      loop fuel m st = Some (st', r) /\
      Post m s0 g (log ++ loop_events fuel m st) st' r /\
      Q (log ++ loop_events fuel m st) st' r.
Proof.
  intros HR Hpres. induction fuel as [|k IH]; intros log st HI HJ Hfuel.
  - exfalso.
    assert (run_explored st ⊆ R).
    { intros s Hs. apply HR. now apply (inv_reach _ _ _ _ _ HI). }
    apply subseteq_size in H. lia.
  - simpl. specialize (Hpres log st HI HJ).
    destruct (step m st) as [st' r|st'] eqn:Hstep.
    + exists st', r. rewrite app_nil_r. split; [reflexivity|].
      split; [|assumption]. now apply (Inv_done log st st' r HI).
    + destruct (Inv_again log st st' HI Hstep) as (HI' & Hsz & _).
      destruct (IH (log ++ step_events m st) st' HI' Hpres) as (st'' & r & H1 & H2 & H3).
      { lia. }
      rewrite <- app_assoc in H2, H3. eauto.
Qed.

Lemma Inv_after k :
  forall log st st', Inv m s0 g log st -> after k m st = Some st' ->
  exists log', Inv m s0 g log' st'.
Proof.
  induction k as [|k IH]; intros log st st' HI Ha; simpl in Ha.
  - inversion Ha; subst. eauto.
  - destruct (step m st) as [|st1] eqn:Hstep; [discriminate|].
    destruct (Inv_again log st st1 HI Hstep) as (HI' & _).
    eauto.
Qed.
End Invariant.

(** ** From the loop to [solve] *)

Lemma loop_more_fuel m k k' st out :
  loop k m st = Some out -> (k <= k')%nat -> loop k' m st = Some out.
Proof.
  revert k' st. induction k as [|k IH]; intros k' st H Hle; [discriminate|].
  destruct k' as [|k']; [lia|]. simpl in *.
  destruct (step m st); [assumption|]. apply IH; [assumption | lia].
Qed.

Lemma solve_of_loop m s0 fuel st r :
  start m = Some s0 ->
  loop fuel m (initial_run s0) = Some (st, r) ->
  solve fuel m
  = Some (match r with
          | Ok sol => (set_solution (set_run m st) sol, Ok tt)
          | Raise e => (set_run m st, Raise e)
          end).
Proof.
  intros Hs Hl. unfold solve. rewrite Hs, Hl. now destruct r.
Qed.

Lemma solve_inv_loop m s0 fuel m' r :
  start m = Some s0 ->
  solve fuel m = Some (m', r) ->
  exists st r', loop fuel m (initial_run s0) = Some (st, r') /\
    match r' with
    | Ok sol => m' = set_solution (set_run m st) sol /\ r = Ok tt
    | Raise e => m' = set_run m st /\ r = Raise e
    end.
Proof.
  intros Hs H. unfold solve in H. rewrite Hs in H.
  destruct (loop fuel m (initial_run s0)) as [[st [sol|e]]|]; try discriminate;
    inversion H; subst.
  - exists st, (Ok sol). auto.
  - exists st, (Raise e). auto.
Qed.

Lemma in_bounds_cells m s : in_bounds m s = true -> s ∈ cells m.
Proof.
  intros Hb. apply in_bounds_iff in Hb. destruct s as [r c]. simpl in Hb.
  unfold cells. apply elem_of_list_to_set, list_elem_of_In, in_flat_map.
  exists (Z.to_nat r). split.
  - unfold range. apply in_seq. lia.
  - apply in_map_iff. exists (Z.to_nat c). split.
    + f_equal; lia.
    + unfold range. apply in_seq. lia.
Qed.

Lemma reachable_open m s0 g t :
  WfMaze m s0 g -> reachable m t -> open_cell m t = true.
Proof.
  intros Hwf (s & Hs & Hrtc).
  rewrite (wf_start _ _ _ Hwf) in Hs. inversion Hs; subst s.
  revert t Hrtc. apply (rtc_ind_r (fun t => open_cell m t = true)).
  - apply Hwf.
  - intros x y _ (a & l & Hn & Hin) _.
    rewrite (neighbors_open_moves _ (wf_rect _ _ _ Hwf)) in Hn.
    inversion Hn; subst l. now apply open_moves_shift in Hin.
Qed.

Lemma reachable_cells m s0 g t :
  WfMaze m s0 g -> reachable m t -> t ∈ cells m.
Proof.
  intros Hwf Hr. apply in_bounds_cells.
  apply (reachable_open m s0 g t Hwf) in Hr.
  unfold open_cell in Hr. now apply andb_true_iff in Hr.
Qed.

(** Total correctness of the loop as [solve] enters it. *)
Lemma solve_loop_total (m : Maze) (s0 g : State) (R : gset State)
    (I : list Event -> Run -> Prop)
    (Q : list Event -> Run -> Result Solution -> Prop) :
  WfMaze m s0 g ->
  (forall s, reachable m s -> s ∈ R) ->
  I [Added s0] (initial_run s0) ->
  (forall log st, Inv m s0 g log st -> I log st ->
     match step m st with
     | Again st' => I (log ++ step_events m st) st'
     | Done st' r => Q (log ++ step_events m st) st' r
     end) ->
  forall fuel, (size R < fuel)%nat ->
  exists st r,
    loop fuel m (initial_run s0) = Some (st, r) /\
    Post m s0 g (solve_events fuel m) st r /\
    Q (solve_events fuel m) st r.
Proof.
  intros Hwf HR HI0 Hpres fuel Hfuel.
  unfold solve_events. rewrite (wf_start _ _ _ Hwf).
  change (Added s0 :: loop_events fuel m (initial_run s0))
    with ([Added s0] ++ loop_events fuel m (initial_run s0)).
  apply (loop_total m s0 g Hwf R I Q HR Hpres fuel).
  - now apply Inv_initial.
  - assumption.
  - unfold initial_run; cbn [run_explored]. rewrite size_empty. lia.
Qed.

Lemma solve_loop_post (m : Maze) (s0 g : State) (R : gset State) :
  WfMaze m s0 g ->
  (forall s, reachable m s -> s ∈ R) ->
  forall fuel, (size R < fuel)%nat ->
  exists st r,
    loop fuel m (initial_run s0) = Some (st, r) /\
    Post m s0 g (solve_events fuel m) st r.
Proof.
  intros Hwf HR fuel Hfuel.
  destruct (solve_loop_total m s0 g R (fun _ _ => True) (fun _ _ _ => True)
              Hwf HR I) with (fuel := fuel) as (st & r & H1 & H2 & _).
  - intros log st _ _. now destruct (step m st).
  - assumption.
  - eauto.
Qed.

(** ** Path reconstruction *)

Lemma last_cons_default {A} (l : list A) (x d : A) :
  List.last (x :: l) d = List.last l x.
Proof.
  revert x d. induction l as [|y l IH]; intros x d; [reflexivity|].
  change (List.last (x :: y :: l) d) with (List.last (y :: l) d).
  now rewrite !IH.
Qed.

Lemma walk_app s l1 l2 :
  walk s (l1 ++ l2) = walk s l1 ++ walk (List.last (walk s l1) s) l2.
Proof.
  revert s. induction l1 as [|a l1 IH]; intros s; [reflexivity|].
  simpl app. cbn [walk]. rewrite IH. simpl app. f_equal. f_equal. f_equal.
  symmetry. apply last_cons_default.
Qed.

Lemma walk_length s acts : length (walk s acts) = length acts.
Proof. revert s. induction acts; intros; simpl; congruence. Qed.

Lemma walk_nth acts : forall s i c,
  nth_error (walk s acts) i = Some c ->
  exists act, nth_error acts i = Some act /\
    c = shift (match i with O => s | S j => nth j (walk s acts) s end) act.
Proof.
  induction acts as [|a acts IH]; intros s i c H; simpl in *.
  - destruct i; discriminate.
  - destruct i as [|i]; simpl in *.
    + inversion H; subst. eauto.
    + destruct (IH _ _ _ H) as (act & Hact & Hc). exists act. split; [assumption|].
      rewrite Hc. destruct i as [|j]; [reflexivity|]. f_equal.
      simpl. apply nth_indep.
      assert (S j < length (walk (shift s a) acts))%nat
        by (apply nth_error_Some; rewrite H; discriminate).
      lia.
Qed.

Lemma chain_backtrack m s0 node :
  chain m s0 node ->
  exists acts,
    (forall A C, backtrack node A C
                 = (A ++ rev (map Some acts), C ++ rev (walk s0 acts))) /\
    List.last (walk s0 acts) s0 = state node.
Proof.
  induction 1 as [|p a s Hp IH Hin].
  - exists []. simpl. split; [|reflexivity]. intros. now rewrite !app_nil_r.
  - destruct IH as (acts & Hb & Hl). exists (acts ++ [a]).
    apply open_moves_shift in Hin. destruct Hin as [Hs _].
    rewrite walk_app, Hl. simpl. split.
    + intros A C. rewrite Hb, map_app, !rev_app_distr. simpl.
      rewrite <- !app_assoc. simpl. now rewrite Hs.
    + rewrite last_last. auto.
Qed.

Lemma chain_reconstruct m s0 node :
  chain m s0 node ->
  exists acts,
    reconstruct node = (map Some acts, walk s0 acts) /\
    List.last (walk s0 acts) s0 = state node.
Proof.
  intros Hc. destruct (chain_backtrack m s0 node Hc) as (acts & Hb & Hl).
  exists acts. split; [|assumption].
  unfold reconstruct. rewrite Hb. simpl. now rewrite !rev_involutive.
Qed.

Lemma NoDup_length_size (l : list State) (R : gset State) :
  NoDup l -> (forall s, In s l -> s ∈ R) -> (length l <= size R)%nat.
Proof.
  intros Hnd Hin. rewrite <- (size_list_to_set (C := gset State) l) by assumption.
  apply subseteq_size. intros s Hs. apply elem_of_list_to_set in Hs.
  apply Hin. now apply list_elem_of_In.
Qed.

(** Discharges [WfMaze] on a literal maze. *)
Ltac wf_by_computation :=
  constructor;
  [ split; [reflexivity | repeat constructor]
  | reflexivity | reflexivity | reflexivity | reflexivity | discriminate ].

(** ** Properties of [solve] *)

(** C1, as the code has it: on a well-formed maze [solve] always ends.  It
    returns (plain [return], the solution stored) exactly when the goal is
    reachable; otherwise the frontier runs empty, the loop's own emptiness
    test fires before [remove] is called, and the call ends by raising
    [Exception("no solution")] to its caller.  No other exception, in
    particular not [remove]'s "empty frontier", can come out. *)
Theorem solve_returns_or_raises_no_solution
    (m : Maze) (s0 g : State) (fuel : nat) :
  WfMaze m s0 g -> (size (cells m) < fuel)%nat ->
  exists m' r,
    solve fuel m = Some (m', r) /\
    ((reachable m g /\ r = Ok tt /\ is_Some (solution m')) \/
     (~ reachable m g /\ r = Raise (Exception "no solution"))).
Proof.
  intros Hwf Hfuel.
  destruct (solve_loop_post m s0 g (cells m) Hwf
              (fun s => reachable_cells m s0 g s Hwf) fuel Hfuel)
    as (st & r & Hloop & HP).
  rewrite (solve_of_loop m s0 fuel st r (wf_start _ _ _ Hwf) Hloop).
  destruct (post_outcome _ _ _ _ _ _ HP) as [(-> & Hnr & _)|(node & -> & Hc & Hg & _)].
  - eexists _, _. split; [reflexivity|]. right. auto.
  - eexists _, _. split; [reflexivity|]. left. split; [|split; [reflexivity|]].
    + rewrite <- Hg. apply (chain_reachable m s0); (apply Hwf || assumption).
    + simpl. eauto.
Qed.

Lemma solve_returns_or_raises_no_solution_witness :
  exists m' r,
    solve 4 maze_enclosed = Some (m', r) /\
    ((reachable maze_enclosed (0, 2) /\ r = Ok tt /\ is_Some (solution m')) \/
     (~ reachable maze_enclosed (0, 2) /\ r = Raise (Exception "no solution"))).
Proof.
  apply (solve_returns_or_raises_no_solution maze_enclosed (0, 0) (0, 2) 4).
  - wf_by_computation.
  - vm_compute. lia.
Defined.

(** C1, as stated, fails: on the maze [A#B] the search does not come back
    with an outcome value.  [solve] ends by an exception that it raises to
    its caller, and [main], which does not catch it, ends by that same
    exception; no amount of fuel makes the call return. *)
Lemma solve_no_solution_is_raised :
  Maze_init (codes "A#B") = Ok maze_enclosed /\
  (exists m', solve 2 maze_enclosed
              = Some (m', Raise (Exception "no solution"))) /\
  (forall fuel m' v, solve fuel maze_enclosed <> Some (m', Ok v)) /\
  main 2 (codes "A#B") = Some (Raise (Exception "no solution")).
Proof.
  split; [reflexivity|]. split; [eexists; vm_compute; reflexivity|].
  split; [|reflexivity].
  intros [|[|k]] m' v; vm_compute; discriminate.
Qed.

Lemma open_moves_intro m s a :
  open_cell m (shift s a) = true -> In (a, shift s a) (open_moves m s).
Proof.
  intros Ho. unfold open_moves. apply filter_In. split; [|assumption].
  rewrite candidates_shift.
  apply (in_map (fun a => (a, shift s a))). destruct a; simpl; auto.
Qed.

Lemma adjacent_shift (s t : State) :
  Z.abs (fst t - fst s) + Z.abs (snd t - snd s) = 1 ->
  exists a, t = shift s a.
Proof.
  destruct s as [r c], t as [r' c']. simpl. intros H.
  assert (Hc : (r' = r - 1 /\ c' = c) \/ (r' = r + 1 /\ c' = c) \/
               (r' = r /\ c' = c - 1) \/ (r' = r /\ c' = c + 1)) by lia.
  destruct Hc as [[-> ->]|[[-> ->]|[[-> ->]|[-> ->]]]];
    [exists up | exists down | exists left | exists right];
    unfold shift; simpl; f_equal; lia.
Qed.

Lemma NoDup_state_eq (l : list Node) (x y : Node) :
  NoDup (map state l) -> In x l -> In y l -> state x = state y -> x = y.
Proof.
  induction l as [|n l IH]; simpl; intros Hnd Hx Hy E; [contradiction|].
  apply NoDup_cons in Hnd. destruct Hnd as [Hn Hnd].
  rewrite list_elem_of_In in Hn.
  destruct Hx as [->|Hx], Hy as [->|Hy]; auto.
  - exfalso. apply Hn. rewrite E. now apply in_map.
  - exfalso. apply Hn. rewrite <- E. now apply in_map.
Qed.

(** C2: when the goal is orthogonally adjacent to the start (so a path
    exists, both being open cells), [solve] returns, the stored solution has
    exactly one action and one cell, the cell is the goal, and the action's
    delta takes the start to the goal. *)
Theorem solve_adjacent_goal (m : Maze) (s0 g : State) (fuel : nat) :
  WfMaze m s0 g ->
  Z.abs (fst g - fst s0) + Z.abs (snd g - snd s0) = 1 ->
  (size (cells m) < fuel)%nat ->
  exists m' a,
    solve fuel m = Some (m', Ok tt) /\
    solution m' = Some ([Some a], [g]) /\
    g = (fst s0 + fst (delta a), snd s0 + snd (delta a)).
Proof.
  intros Hwf Hadj Hfuel.
  destruct (adjacent_shift s0 g Hadj) as [a Ha].
  set (root := mkNode s0 None None).
  set (gn := mkNode g (Some root) (Some a)).
  assert (Hmove : In (a, g) (open_moves m s0)).
  { rewrite Ha. apply open_moves_intro. rewrite <- Ha. apply Hwf. }
  destruct (solve_loop_total m s0 g (cells m)
              (fun _ st => (frontier st = [root] /\ run_explored st = ∅) \/
                           In gn (frontier st))
              (fun _ _ r => r = Ok ([Some a], [g]))
              Hwf (fun s => reachable_cells m s0 g s Hwf))
    with (fuel := fuel) as (st & r & Hloop & _ & ->).
  - left. split; reflexivity.
  - intros log st HI HJ. destruct (step m st) as [st' r|st'] eqn:Hstep.
    + destruct (Inv_done m s0 g Hwf log st st' r HI Hstep)
        as [_ [[E _]|(f & node & E & Hg & ->)]].
      * rewrite E in HJ. destruct HJ as [[HJ _]|[]]. discriminate.
      * assert (node = gn); [|subst node; reflexivity].
        destruct HJ as [[HJ _]|HJ].
        -- rewrite E in HJ. change [root] with ([] ++ [root]) in HJ.
           apply app_inj_tail in HJ. destruct HJ as [_ ->].
           simpl in Hg. destruct (wf_distinct _ _ _ Hwf Hg).
        -- apply (NoDup_state_eq (frontier st)).
           ++ apply HI.
           ++ rewrite E. apply in_app_iff. right. now left.
           ++ assumption.
           ++ assumption.
    + destruct (Inv_again m s0 g Hwf log st st' HI Hstep)
        as (_ & _ & f & node & E & Hng & E').
      right. rewrite E'. apply in_app_iff.
      destruct HJ as [[HJ Hex]|HJ].
      * rewrite E in HJ. change [root] with ([] ++ [root]) in HJ.
        apply app_inj_tail in HJ. destruct HJ as [-> ->]. right.
        destruct (children_of_spec m s0 root ({[ state root ]} ∪ run_explored st)
                    (open_moves m (state root)) (chain_root m s0)
                    (fun a t H => H) [] (NoDup_nil_2 (A := State)))
          as (_ & H2 & H3).
        destruct (H3 a g Hmove) as [Hin|Hin].
        -- rewrite Hex in Hin. simpl in Hin.
           destruct (wf_distinct _ _ _ Hwf). set_solver.
        -- simpl in Hin. apply in_map_iff in Hin.
           destruct Hin as (c & Hc & Hin).
           destruct (H2 c Hin) as (_ & _ & a' & Hin' & Hceq).
           rewrite Hc in Hin', Hceq. simpl in Hin'.
           apply open_moves_shift in Hin'. destruct Hin' as [Hs _].
           rewrite Ha in Hs. apply shift_injective in Hs. subst a'.
           rewrite Hceq in Hin. exact Hin.
      * rewrite E in HJ. apply in_app_iff in HJ.
        destruct HJ as [HJ|[HJ|[]]]; [now left|].
        subst node. simpl in Hng. congruence.
  - assumption.
  - exists (set_solution (set_run m st) ([Some a], [g])), a.
    rewrite (solve_of_loop m s0 fuel st _ (wf_start _ _ _ Hwf) Hloop).
    split; [reflexivity|]. split; [reflexivity|]. exact Ha.
Qed.

Lemma solve_adjacent_goal_witness :
  exists m' a,
    solve 3 maze_AB = Some (m', Ok tt) /\
    solution m' = Some ([Some a], [(0, 1)]) /\
    (0, 1) = (fst (0, 0) + fst (delta a), snd (0, 0) + snd (delta a)).
Proof.
  apply (solve_adjacent_goal maze_AB (0, 0) (0, 1) 3).
  - wf_by_computation.
  - reflexivity.
  - vm_compute. lia.
Defined.

Lemma loop_passes_events (m : Maze) (s0 g : State) :
  WfMaze m s0 g ->
  forall fuel log st st' r,
    Inv m s0 g log st ->
    loop fuel m st = Some (st', r) ->
    loop_passes fuel m st
    = Some (length (removed (loop_events fuel m st))
            + match r with Ok _ => 0 | Raise _ => 1 end)%nat.
Proof.
  intros Hwf. induction fuel as [|k IH]; intros log st st' r HI Hloop;
    [discriminate|].
  cbn [loop loop_passes loop_events] in *.
  destruct (frontier_cases (frontier st)) as [E|(f & node & E)].
  - destruct (step_empty m st E) as [Hs He].
    rewrite Hs in *. rewrite He. inversion Hloop; subst. reflexivity.
  - destruct (decide (state node = g)) as [Hg|Hg].
    + destruct (step_goal m g st f node (wf_goal _ _ _ Hwf) E Hg) as [Hs He].
      rewrite Hs in *. rewrite He. inversion Hloop; subst. reflexivity.
    + destruct (step_expand m g st f node (wf_rect _ _ _ Hwf)
                  (wf_goal _ _ _ Hwf) E Hg) as [Hs He].
      destruct (Inv_again m s0 g Hwf log st _ HI Hs) as (HI' & _).
      rewrite Hs in *. rewrite He.
      rewrite (IH _ _ _ _ HI' Hloop).
      rewrite removed_app. cbn [removed flat_map app].
      fold (removed (map (fun c => Added (state c))
                       (children_of node ({[ state node ]} ∪ run_explored st)
                          (open_moves m (state node)) f))).
      rewrite removed_children. reflexivity.
Qed.

(** C4, as the code has it: [solve] terminates.  Over the whole run no state
    is added to the frontier twice and no state is removed (expanded) twice,
    and every state that is added or removed is reachable from the start.
    The passes of the loop that remove a node, whose number is the final
    value of [num_explored], are at most as many as the states of any finite
    set [R] holding the reachable states, the set of reachable states itself
    in particular.  The loop is entered that many times when the search
    succeeds and once more when it does not (the last pass finds the
    frontier empty and raises): at most [size R + 1] times. *)
Theorem solve_terminates_bounded
    (m : Maze) (s0 g : State) (R : gset State) (fuel : nat) :
  WfMaze m s0 g ->
  (forall s, reachable m s -> s ∈ R) ->
  (size R < fuel)%nat ->
  exists m' r p,
    solve fuel m = Some (m', r) /\
    solve_passes fuel m = Some p /\
    NoDup (added (solve_events fuel m)) /\
    NoDup (removed (solve_events fuel m)) /\
    (forall s, In s (added (solve_events fuel m)) -> reachable m s) /\
    (forall s, In s (removed (solve_events fuel m)) -> reachable m s) /\
    num_explored m' = Some (Z.of_nat (length (removed (solve_events fuel m)))) /\
    (length (removed (solve_events fuel m)) <= size R)%nat /\
    p = (length (removed (solve_events fuel m))
         + match r with Ok _ => 0 | Raise _ => 1 end)%nat /\
    (p <= size R + 1)%nat.
Proof.
  intros Hwf HR Hfuel.
  destruct (solve_loop_post m s0 g R Hwf HR fuel Hfuel) as (st & r & Hloop & HP).
  rewrite (solve_of_loop m s0 fuel st r (wf_start _ _ _ Hwf) Hloop).
  pose proof (loop_passes_events m s0 g Hwf fuel [Added s0] (initial_run s0)
                st r (Inv_initial m s0 g Hwf) Hloop) as Hpass.
  destruct HP as [Pa Pr Par Prr Plen _ _].
  assert (Hle : (length (removed (solve_events fuel m)) <= size R)%nat).
  { apply NoDup_length_size; [assumption|]. intros s Hs. apply HR. now apply Prr. }
  assert (Hrem : removed (solve_events fuel m)
                 = removed (loop_events fuel m (initial_run s0))).
  { unfold solve_events. now rewrite (wf_start _ _ _ Hwf). }
  unfold solve_passes. rewrite (wf_start _ _ _ Hwf), Hpass, <- Hrem.
  destruct r as [sol|e]; eexists _, _, _; (split; [reflexivity|]);
    (split; [reflexivity|]);
    repeat (split; [assumption|]);
    (split; [simpl; now rewrite Plen|]);
    (split; [assumption|]); (split; [reflexivity | lia]).
Qed.

Lemma solve_terminates_bounded_witness :
  exists m' r p,
    solve 3 maze_AB = Some (m', r) /\
    solve_passes 3 maze_AB = Some p /\
    NoDup (added (solve_events 3 maze_AB)) /\
    NoDup (removed (solve_events 3 maze_AB)) /\
    (forall s, In s (added (solve_events 3 maze_AB)) -> reachable maze_AB s) /\
    (forall s, In s (removed (solve_events 3 maze_AB)) -> reachable maze_AB s) /\
    num_explored m' = Some (Z.of_nat (length (removed (solve_events 3 maze_AB)))) /\
    (length (removed (solve_events 3 maze_AB)) <= size (cells maze_AB))%nat /\
    p = (length (removed (solve_events 3 maze_AB))
         + match r with Ok _ => 0 | Raise _ => 1 end)%nat /\
    (p <= size (cells maze_AB) + 1)%nat.
Proof.
  apply (solve_terminates_bounded maze_AB (0, 0) (0, 1) (cells maze_AB) 3).
  - wf_by_computation.
  - intros s. apply (reachable_cells maze_AB (0, 0) (0, 1)). wf_by_computation.
  - vm_compute. lia.
Defined.

(** C4, as stated, fails by one: in the maze [A#B] one state is reachable
    from the start, and the loop is entered twice; the second pass finds
    the frontier empty and raises. *)
Lemma solve_passes_exceed_reachable :
  exists R : gset State,
    (forall s, s ∈ R <-> reachable maze_enclosed s) /\
    size R = 1%nat /\
    solve_passes 2 maze_enclosed = Some 2%nat /\
    (forall fuel p, solve_passes fuel maze_enclosed = Some p ->
                    (size R < p)%nat).
Proof.
  exists {[ (0, 0) ]}. split; [|split; [|split]].
  - intros s. rewrite elem_of_singleton. split.
    + intros ->. exists (0, 0). split; [reflexivity | apply rtc_refl].
    + intros (s1 & Hs & Hrtc). inversion Hs; subst s1.
      revert s Hrtc. apply (rtc_ind_r (fun t => t = (0, 0))); [reflexivity|].
      intros x y _ (a & l & Hn & Hin) ->.
      vm_compute in Hn. inversion Hn; subst l. destruct Hin.
  - apply size_singleton.
  - vm_compute. reflexivity.
  - intros [|[|k]] p H; vm_compute in H; inversion H; subst.
    rewrite size_singleton. lia.
Qed.

(** C5: a solution is produced whenever the goal is reachable, and every
    solution a successful [solve] stores is a walk from the start
    (exclusive) to the goal (inclusive): as many actions as cells, at least
    one; the cell at index [i] is the previous cell (the start for [i = 0])
    shifted by the delta of the action at index [i]; the last cell is the
    goal. *)
Theorem solution_is_walk (m : Maze) (s0 g : State) :
  WfMaze m s0 g ->
  (reachable m g ->
   forall fuel, (size (cells m) < fuel)%nat ->
   exists m', solve fuel m = Some (m', Ok tt)) /\
  (forall fuel m',
     solve fuel m = Some (m', Ok tt) ->
     exists actions cs,
       solution m' = Some (actions, cs) /\
       length actions = length cs /\
       cs <> [] /\
       (forall i c,
          nth_error cs i = Some c ->
          exists a,
            nth_error actions i = Some (Some a) /\
            c = shift (match i with O => s0 | S j => nth j cs s0 end) a) /\
       List.last cs s0 = g).
Proof.
  intros Hwf. split.
  - intros Hreach fuel Hfuel.
    destruct (solve_loop_post m s0 g (cells m) Hwf
                (fun s => reachable_cells m s0 g s Hwf) fuel Hfuel)
      as (st & r & Hloop & HP).
    rewrite (solve_of_loop m s0 fuel st r (wf_start _ _ _ Hwf) Hloop).
    destruct (post_outcome _ _ _ _ _ _ HP) as [(_ & Hnr & _)|(node & -> & _)].
    + contradiction.
    + eauto.
  - intros fuel m' Hsolve.
    destruct (solve_inv_loop m s0 fuel m' (Ok tt) (wf_start _ _ _ Hwf) Hsolve)
      as (st & [sol|e] & Hloop & Hm); [|destruct Hm; discriminate].
    destruct Hm as [-> _].
    set (fuel' := Nat.max fuel (S (size (cells m)))).
    destruct (solve_loop_post m s0 g (cells m) Hwf
                (fun s => reachable_cells m s0 g s Hwf) fuel')
      as (st' & r' & Hloop' & HP); [lia|].
    rewrite (loop_more_fuel m fuel fuel' _ _ Hloop) in Hloop' by lia.
    inversion Hloop'; subst st' r'.
    destruct (post_outcome _ _ _ _ _ _ HP)
      as [(Hr & _)|(node & Hr & Hc & Hg & _)]; [discriminate|].
    inversion Hr; subst sol.
    destruct (chain_reconstruct m s0 node Hc) as (acts & Hrec & Hlast).
    exists (map Some acts), (walk s0 acts). simpl. rewrite Hrec.
    split; [reflexivity|]. split; [now rewrite length_map, walk_length|].
    split; [|split].
    + intros Hnil. rewrite Hnil in Hlast. simpl in Hlast.
      apply (wf_distinct _ _ _ Hwf). congruence.
    + intros i c Hi. destruct (walk_nth acts s0 i c Hi) as (a & Ha & Hc').
      exists a. split; [|assumption].
      rewrite nth_error_map, Ha. reflexivity.
    + congruence.
Qed.

Lemma solution_is_walk_witness :
  exists m' actions cs,
    solve 3 maze_AB = Some (m', Ok tt) /\
    solution m' = Some (actions, cs) /\
    length actions = length cs /\
    cs <> [] /\
    (forall i c,
       nth_error cs i = Some c ->
       exists a,
         nth_error actions i = Some (Some a) /\
         c = shift (match i with O => (0, 0) | S j => nth j cs (0, 0) end) a) /\
    List.last cs (0, 0) = (0, 1).
Proof.
  destruct (solution_is_walk maze_AB (0, 0) (0, 1)) as [Hex Hwalk];
    [wf_by_computation|].
  destruct (Hex) with (fuel := 3%nat) as [m' Hm'].
  - exists (0, 0). split; [reflexivity|]. apply rtc_once.
    exists right, [(right, (0, 1))]. split; [reflexivity | now left].
  - vm_compute. lia.
  - destruct (Hwalk 3%nat m' Hm') as (actions & cs & H).
    exists m', actions, cs. split; assumption.
Defined.

(** C9: at the head of the loop, after any number of passes, the goal state
    is not in the explored set, nor is it when [solve] ends; no two removed
    nodes share a state; and after a successful [solve] the counter
    [num_explored] is the size of the explored set plus one. *)
Theorem goal_never_explored (m : Maze) (s0 g : State) (fuel : nat) :
  WfMaze m s0 g -> (size (cells m) < fuel)%nat ->
  (forall k st, after k m (initial_run s0) = Some st -> g ∉ run_explored st) /\
  exists m' r e n,
    solve fuel m = Some (m', r) /\
    explored m' = Some e /\ num_explored m' = Some n /\
    (g ∉ e) /\
    NoDup (removed (solve_events fuel m)) /\
    (r = Ok tt -> n = Z.of_nat (size e) + 1).
Proof.
  intros Hwf Hfuel. split.
  - intros k st Hafter.
    destruct (Inv_after m s0 g Hwf k [Added s0] (initial_run s0) st
                (Inv_initial m s0 g Hwf) Hafter) as [log HI].
    apply HI.
  - destruct (solve_loop_post m s0 g (cells m) Hwf
                (fun s => reachable_cells m s0 g s Hwf) fuel Hfuel)
      as (st & r & Hloop & HP).
    rewrite (solve_of_loop m s0 fuel st r (wf_start _ _ _ Hwf) Hloop).
    destruct HP as [_ Pr _ _ _ Pg Po].
    destruct Po as [(-> & _ & Hn)|(node & -> & _ & _ & Hn)].
    + eexists _, _, _, _. split; [reflexivity|]. simpl.
      repeat (split; [reflexivity || assumption|]). discriminate.
    + eexists _, _, _, _. split; [reflexivity|]. simpl.
      repeat (split; [reflexivity || assumption|]). intros _. exact Hn.
Qed.

Lemma goal_never_explored_witness :
  (forall k st, after k maze_AB (initial_run (0, 0)) = Some st ->
                (0, 1) ∉ run_explored st) /\
  exists m' r e n,
    solve 3 maze_AB = Some (m', r) /\
    explored m' = Some e /\ num_explored m' = Some n /\
    ((0, 1) ∉ e) /\
    NoDup (removed (solve_events 3 maze_AB)) /\
    (r = Ok tt -> n = Z.of_nat (size e) + 1).
Proof.
  apply (goal_never_explored maze_AB (0, 0) (0, 1) 3).
  - wf_by_computation.
  - vm_compute. lia.
Defined.

(** C10: a call of [solve] that ends with the no-solution exception leaves
    the attribute [solution] as it was before the call, [None] or an
    earlier solution alike. *)
Theorem failed_solve_keeps_solution (m m' : Maze) (fuel : nat) :
  solve fuel m = Some (m', Raise (Exception "no solution")) ->
  solution m' = solution m.
Proof.
  unfold solve. intros H.
  destruct (start m) as [s|].
  - destruct (loop fuel m (initial_run s)) as [[st [sol|e]]|];
      inversion H; reflexivity.
  - inversion H.
Qed.

Lemma failed_solve_keeps_solution_witness :
  solution (set_run (set_solution maze_enclosed ([Some right], [(0, 1)]))
              (mkRun [] {[ (0, 0) ]} 1))
  = Some ([Some right], [(0, 1)]).
Proof.
  apply (failed_solve_keeps_solution
           (set_solution maze_enclosed ([Some right], [(0, 1)])) _ 2).
  vm_compute. reflexivity.
Defined.

(** ** Reading the maze text *)

Lemma count_cons c x s :
  count c (x :: s) = (if N.eqb x c then 1 else 0) + count c s.
Proof.
  unfold count. simpl. destruct (N.eqb x c); simpl length; lia.
Qed.

Lemma count_app c s1 s2 : count c (s1 ++ s2) = count c s1 + count c s2.
Proof.
  induction s1 as [|x s1 IH]; [reflexivity|].
  simpl app. rewrite !count_cons, IH. lia.
Qed.

Lemma count_rev c s : count c (rev s) = count c s.
Proof.
  induction s as [|x s IH]; [reflexivity|].
  simpl rev. rewrite count_app, !count_cons, IH.
  change (count c []) with 0. lia.
Qed.

Lemma count_nonneg c s : 0 <= count c s.
Proof. unfold count. lia. Qed.

Lemma count_in_lines_cons c line lines :
  count_in_lines c (line :: lines) = count c line + count_in_lines c lines.
Proof. reflexivity. Qed.

Lemma splitlines_from_count c :
  is_linebreak c = false ->
  forall s cur acr,
    count_in_lines c (splitlines_from cur acr s) = count c cur + count c s.
Proof.
  intros Hc. induction s as [|x s IH]; intros cur acr.
  - cbn [splitlines_from]. destruct cur as [|y cur]; [reflexivity|].
    rewrite count_in_lines_cons, count_rev.
    change (count c []) with 0. change (count_in_lines c []) with 0. lia.
  - assert (Hx : is_linebreak x = true -> N.eqb x c = false).
    { intros Hl. apply N.eqb_neq. intros ->. congruence. }
    cbn [splitlines_from]. rewrite count_cons.
    destruct (acr && N.eqb x chr_LF) eqn:Hskip.
    + rewrite IH. apply andb_true_iff in Hskip. destruct Hskip as [_ Hlf].
      apply N.eqb_eq in Hlf. subst x. rewrite Hx by reflexivity. lia.
    + destruct (is_linebreak x) eqn:Hl.
      * rewrite count_in_lines_cons.
        rewrite IH, count_rev, Hx by reflexivity.
        change (count c []) with 0. lia.
      * rewrite IH, count_cons. lia.
Qed.

Lemma count_pos_nth c line :
  0 < count c line -> exists j, nth_error line j = Some c.
Proof.
  induction line as [|x line IH]; intros H.
  - unfold count in H. simpl in H. lia.
  - rewrite count_cons in H. destruct (N.eqb x c) eqn:E.
    + apply N.eqb_eq in E. subst. now exists 0%nat.
    + destruct IH as [j Hj]; [lia|]. now exists (S j).
Qed.

Lemma count_in_lines_pos c lines :
  0 < count_in_lines c lines ->
  exists i j, char_at lines i j = Some c.
Proof.
  induction lines as [|line lines IH]; simpl; intros H; [lia|].
  destruct (Z.ltb_spec 0 (count c line)) as [Hp|Hp].
  - destruct (count_pos_nth c line Hp) as [j Hj]. now exists 0%nat, j.
  - pose proof (count_nonneg c line).
    destruct IH as (i & j & Hij); [lia|]. now exists (S i), j.
Qed.

Lemma char_at_bounds lines i j c :
  char_at lines i j = Some c ->
  exists line, nth_error lines i = Some line /\
    (i < length lines)%nat /\ (j < length line)%nat.
Proof.
  unfold char_at. destruct (nth_error lines i) as [line|] eqn:E; [|discriminate].
  intros H. exists line. split; [reflexivity|]. split.
  - apply nth_error_Some. congruence.
  - apply nth_error_Some. congruence.
Qed.

Lemma fold_max_spec (l : list Z) : forall x,
  let w := fold_left Z.max l x in
  x <= w /\ (forall y, In y l -> y <= w) /\ (w = x \/ In w l).
Proof.
  induction l as [|y l IH]; intros x; simpl.
  - split; [lia|]. split; [intros ? []|now left].
  - destruct (IH (Z.max x y)) as (H1 & H2 & H3).
    split; [lia|]. split.
    + intros z [<-|Hz]; [lia | auto].
    + destruct H3 as [H3|H3]; [|auto].
      rewrite H3.
      destruct (Z.max_spec x y) as [[_ E]|[_ E]]; rewrite E; auto.
Qed.

Lemma py_max_spec (l : list Z) :
  l <> [] ->
  exists w, py_max l = Ok w /\ (forall y, In y l -> y <= w) /\ In w l.
Proof.
  destruct l as [|x l]; [congruence|]. intros _.
  exists (fold_left Z.max l x). split; [reflexivity|].
  destruct (fold_max_spec l x) as (H1 & H2 & H3). split.
  - intros y [<-|Hy]; auto.
  - destruct H3 as [->|H3]; [now left | now right].
Qed.

(** ** The parsing loops *)

Lemma parse_cell_marks contents i j st gl row :
  parse_cell contents i j (st, gl, row)
  = (mark chr_A contents i j st, mark chr_B contents i j gl,
     row ++ [cell_wall contents i j]).
Proof.
  unfold parse_cell, mark, cell_wall.
  destruct (char_at contents i j) as [c|]; [|reflexivity].
  destruct (N.eqb c chr_A) eqn:EA.
  - apply N.eqb_eq in EA. now subst c.
  - destruct (N.eqb c chr_B) eqn:EB.
    + apply N.eqb_eq in EB. now subst c.
    + now destruct (N.eqb c chr_hash).
Qed.

Lemma parse_cells_fold contents i : forall js st gl row,
  fold_left (fun a j => parse_cell contents i j a) js (st, gl, row)
  = (fold_left (fun a j => mark chr_A contents i j a) js st,
     fold_left (fun a j => mark chr_B contents i j a) js gl,
     row ++ map (cell_wall contents i) js).
Proof.
  induction js as [|j js IH]; intros st gl row; cbn [fold_left map].
  - now rewrite app_nil_r.
  - rewrite parse_cell_marks, IH, <- app_assoc. reflexivity.
Qed.

Lemma parse_row_scan contents w i st gl ws :
  parse_row contents w i (st, gl, ws)
  = (scan_row chr_A contents w i st, scan_row chr_B contents w i gl,
     ws ++ [map (cell_wall contents i) (range w)]).
Proof.
  unfold parse_row. now rewrite parse_cells_fold.
Qed.

Lemma parse_rows_fold contents w : forall rows st gl ws,
  fold_left (fun a i => parse_row contents w i a) rows (st, gl, ws)
  = (scan chr_A contents w rows st,
     scan chr_B contents w rows gl,
     ws ++ map (fun i => map (cell_wall contents i) (range w)) rows).
Proof.
  induction rows as [|i rows IH]; intros st gl ws; cbn [fold_left map].
  - now rewrite app_nil_r.
  - rewrite parse_row_scan, IH, <- app_assoc. reflexivity.
Qed.

Lemma marks_some c contents i : forall js cur p,
  fold_left (fun a j => mark c contents i j a) js cur = Some p ->
  cur = Some p \/
  exists j, In j js /\ p = (Z.of_nat i, Z.of_nat j) /\
            char_at contents i j = Some c.
Proof.
  induction js as [|j js IH]; simpl; intros cur p H; [now left|].
  destruct (IH _ _ H) as [Hm|(j' & Hin & Hp & Hc)].
  - unfold mark in Hm. destruct (char_at contents i j) as [x|] eqn:E; [|now left].
    destruct (N.eqb x c) eqn:Ex; [|now left].
    apply N.eqb_eq in Ex. subst x. inversion Hm; subst p.
    right. exists j. auto.
  - right. exists j'. auto.
Qed.

Lemma marks_found c contents i : forall js cur,
  is_Some cur \/ (exists j, In j js /\ char_at contents i j = Some c) ->
  is_Some (fold_left (fun a j => mark c contents i j a) js cur).
Proof.
  induction js as [|j js IH]; simpl; intros cur H.
  - destruct H as [H|(j & [] & _)]. assumption.
  - apply IH. destruct H as [H|(j' & [<-|Hin] & Hc)].
    + left. unfold mark. destruct (char_at contents i j) as [x|]; [|assumption].
      destruct (N.eqb x c); eauto.
    + left. unfold mark. rewrite Hc, N.eqb_refl. eauto.
    + right. eauto.
Qed.

Lemma scan_some c contents w : forall rows cur p,
  scan c contents w rows cur = Some p ->
  cur = Some p \/
  exists i j, In i rows /\ In j (range w) /\
              p = (Z.of_nat i, Z.of_nat j) /\ char_at contents i j = Some c.
Proof.
  unfold scan. induction rows as [|i rows IH]; simpl; intros cur p H; [now left|].
  destruct (IH _ _ H) as [Hm|(i' & j' & Hi & Hj & Hp & Hc)].
  - apply marks_some in Hm. destruct Hm as [Hm|(j & Hj & Hp & Hc)]; [now left|].
    right. exists i, j. auto.
  - right. exists i', j'. auto.
Qed.

Lemma scan_found c contents w : forall rows cur,
  is_Some cur \/
  (exists i j, In i rows /\ In j (range w) /\ char_at contents i j = Some c) ->
  is_Some (scan c contents w rows cur).
Proof.
  unfold scan. induction rows as [|i rows IH]; simpl; intros cur H.
  - destruct H as [H|(i & j & [] & _)]. assumption.
  - apply IH. destruct H as [H|(i' & j' & [<-|Hin] & Hj & Hc)].
    + left. apply marks_found. now left.
    + left. apply marks_found. right. eauto.
    + right. eauto.
Qed.

Lemma nth_error_map_seq {A} (f : nat -> A) n i :
  (i < n)%nat -> nth_error (map f (seq 0 n)) i = Some (f i).
Proof.
  intros H. rewrite nth_error_map, nth_error_seq.
  destruct (Nat.ltb_spec i n); [reflexivity | lia].
Qed.

(** ** Construction *)

Lemma splitlines_count c contents :
  is_linebreak c = false ->
  count_in_lines c (splitlines contents) = count c contents.
Proof.
  intros Hc. unfold splitlines. rewrite splitlines_from_count by assumption.
  change (count c []) with 0. lia.
Qed.

Lemma Maze_init_cases contents :
  (count chr_A contents <> 1 /\
   Maze_init contents = Raise (Exception "maze must have exactly one start point")) \/
  (count chr_A contents = 1 /\ count chr_B contents <> 1 /\
   Maze_init contents = Raise (Exception "maze must have exactly one goal")) \/
  (count chr_A contents = 1 /\ count chr_B contents = 1 /\
   exists w,
     (forall line, In line (splitlines contents) -> Z.of_nat (length line) <= w) /\
     (exists line, In line (splitlines contents) /\ Z.of_nat (length line) = w) /\
     Maze_init contents = Ok (parsed_maze (splitlines contents) w)).
Proof.
  unfold Maze_init.
  destruct (Z.eqb_spec (count chr_A contents) 1) as [HA|HA]; [|left; auto].
  destruct (Z.eqb_spec (count chr_B contents) 1) as [HB|HB]; [|right; left; auto].
  right. right. split; [assumption|]. split; [assumption|]. simpl negb. cbv iota.
  match goal with
  | |- context [py_max ?l] =>
      assert (Hne : l <> []);
      [| destruct (py_max_spec l Hne) as (w & Hmax & Hle & Hin) ]
  end.
  { intros E. apply map_eq_nil in E.
    pose proof (splitlines_count chr_A contents eq_refl) as Hc.
    rewrite E, HA in Hc. discriminate. }
  exists w. split; [|split].
  - intros line Hl. apply Hle.
    now apply (in_map (fun line : list N => Z.of_nat (length line))).
  - apply in_map_iff in Hin. destruct Hin as (line & E & Hl). eauto.
  - rewrite Hmax. cbn [bind]. rewrite parse_rows_fold. reflexivity.
Qed.

Lemma wall_at_parsed contents w i j :
  (i < length contents)%nat -> Z.of_nat j < w ->
  nth_error (walls (parsed_maze contents w)) i
  = Some (map (cell_wall contents i) (range w)) /\
  nth_error (map (cell_wall contents i) (range w)) j
  = Some (cell_wall contents i j) /\
  wall_at (parsed_maze contents w) (Z.of_nat i, Z.of_nat j)
  = cell_wall contents i j.
Proof.
  intros Hi Hj.
  assert (H1 : nth_error (walls (parsed_maze contents w)) i
               = Some (map (cell_wall contents i) (range w))).
  { unfold parsed_maze, range; cbn [walls].
    rewrite (nth_error_map_seq (fun i => map (cell_wall contents i) (seq 0 (Z.to_nat w))))
      by lia.
    reflexivity. }
  assert (H2 : nth_error (map (cell_wall contents i) (range w)) j
               = Some (cell_wall contents i j)).
  { unfold range. apply nth_error_map_seq. lia. }
  split; [assumption|]. split; [assumption|].
  unfold wall_at. cbn [fst snd]. rewrite !Nat2Z.id, H1, H2. reflexivity.
Qed.

Lemma parsed_rectangular contents w :
  0 <= w -> rectangular (parsed_maze contents w).
Proof.
  intros Hw. unfold rectangular, parsed_maze, range; cbn [walls height width].
  split.
  - rewrite length_map, length_seq. lia.
  - apply Forall_forall. intros row Hrow. apply list_elem_of_In, in_map_iff in Hrow.
    destruct Hrow as (i & <- & _). rewrite length_map, length_seq. lia.
Qed.

(** Where the parser leaves the attribute fed by a marker that occurs. *)
Lemma scan_marker c contents w :
  (forall line, In line contents -> Z.of_nat (length line) <= w) ->
  0 < count_in_lines c contents ->
  exists i j,
    scan c contents w (range (Z.of_nat (length contents))) None
    = Some (Z.of_nat i, Z.of_nat j) /\
    (i < length contents)%nat /\ Z.of_nat j < w /\
    char_at contents i j = Some c.
Proof.
  intros Hw Hpos.
  destruct (count_in_lines_pos c contents Hpos) as (i & j & Hc).
  destruct (char_at_bounds contents i j c Hc) as (line & Hline & Hi & Hj).
  assert (Hjw : Z.of_nat j < w).
  { specialize (Hw line (nth_error_In _ _ Hline)). lia. }
  destruct (scan_found c contents w (range (Z.of_nat (length contents))) None)
    as [p Hp].
  { right. exists i, j. unfold range. rewrite !in_seq. split; [lia|]. split; [lia|].
    assumption. }
  destruct (scan_some c contents w _ _ _ Hp) as [Hn|(i' & j' & Hi' & Hj' & -> & Hc')];
    [discriminate|].
  unfold range in Hi', Hj'. rewrite in_seq in Hi', Hj'.
  exists i', j'. split; [assumption|]. split; [lia|]. split; [lia | assumption].
Qed.

Lemma Maze_init_wf contents m :
  Maze_init contents = Ok m -> exists s0 g, WfMaze m s0 g.
Proof.
  intros H.
  destruct (Maze_init_cases contents)
    as [[_ E]|[(_ & _ & E)|(HA & HB & w & Hle & (l0 & Hl0 & Hw0) & E)]];
    rewrite E in H; try discriminate.
  inversion H; subst m. clear H E.
  set (lines := splitlines contents) in *.
  assert (Hw : 0 <= w) by lia.
  destruct (scan_marker chr_A lines w Hle) as (i & j & Hs & Hi & Hj & Hc).
  { unfold lines. rewrite splitlines_count by reflexivity. lia. }
  destruct (scan_marker chr_B lines w Hle) as (i' & j' & Hs' & Hi' & Hj' & Hc').
  { unfold lines. rewrite splitlines_count by reflexivity. lia. }
  exists (Z.of_nat i, Z.of_nat j), (Z.of_nat i', Z.of_nat j').
  destruct (wall_at_parsed lines w i j Hi Hj) as (_ & _ & Hwall).
  destruct (wall_at_parsed lines w i' j' Hi' Hj') as (_ & _ & Hwall').
  constructor.
  - now apply parsed_rectangular.
  - exact Hs.
  - exact Hs'.
  - unfold open_cell. rewrite Hwall. unfold cell_wall. rewrite Hc.
    apply andb_true_iff. split; [|reflexivity].
    apply in_bounds_iff. cbn [fst snd parsed_maze height width]. lia.
  - unfold open_cell. rewrite Hwall'. unfold cell_wall. rewrite Hc'.
    apply andb_true_iff. split; [|reflexivity].
    apply in_bounds_iff. cbn [fst snd parsed_maze height width]. lia.
  - intros Heq. inversion Heq.
    apply Nat2Z.inj in H0, H1. subst i' j'. rewrite Hc in Hc'. discriminate.
Qed.

(** C7: [Maze_init] fails exactly when the text does not hold exactly one
    [A] or does not hold exactly one [B]; the exception is then one of the
    two format errors; and [main] ends by it without entering the search
    (whatever fuel the search is given, none included). *)
Theorem Maze_init_fails_iff (contents : Text) :
  ((exists e, Maze_init contents = Raise e) <->
   (count chr_A contents <> 1 \/ count chr_B contents <> 1)) /\
  (forall e, Maze_init contents = Raise e -> format_error e) /\
  (forall e fuel, Maze_init contents = Raise e ->
                  main fuel contents = Some (Raise e)).
Proof.
  split; [|split].
  - destruct (Maze_init_cases contents)
      as [[HA E]|[(HA & HB & E)|(HA & HB & w & _ & _ & E)]].
    + split; eauto.
    + split; eauto.
    + split.
      * intros [e He]. rewrite E in He. discriminate.
      * intros [H|H]; contradiction.
  - intros e He.
    destruct (Maze_init_cases contents)
      as [[_ E]|[(_ & _ & E)|(_ & _ & w & _ & _ & E)]];
      rewrite E in He; inversion He; [now left | now right].
  - intros e fuel He. unfold main. now rewrite He.
Qed.

(** C8: after a successful construction, [height] is the number of lines
    and [width] the length of the longest one; the wall matrix has [height]
    rows of [width] entries each; an entry beyond the end of a shorter line
    is [False], not a wall; and [start] and [goal] are assigned to cells in
    bounds that are not walls. *)
Theorem Maze_init_grid (contents : Text) (m : Maze) :
  Maze_init contents = Ok m ->
  height m = Z.of_nat (length (splitlines contents)) /\
  (forall line, In line (splitlines contents) ->
                Z.of_nat (length line) <= width m) /\
  (exists line, In line (splitlines contents) /\
                Z.of_nat (length line) = width m) /\
  Z.of_nat (length (walls m)) = height m /\
  Forall (fun row => Z.of_nat (length row) = width m) (walls m) /\
  (forall i j line,
     nth_error (splitlines contents) i = Some line ->
     (length line <= j)%nat -> Z.of_nat j < width m ->
     exists row, nth_error (walls m) i = Some row /\
                 nth_error row j = Some false) /\
  exists s0 g,
    start m = Some s0 /\ goal m = Some g /\
    in_bounds m s0 = true /\ in_bounds m g = true /\
    wall_at m s0 = false /\ wall_at m g = false.
Proof.
  intros H.
  destruct (Maze_init_wf contents m H) as (s0 & g & Hwf).
  destruct (Maze_init_cases contents)
    as [[_ E]|[(_ & _ & E)|(_ & _ & w & Hle & Hex & E)]];
    rewrite E in H; try discriminate.
  inversion H; subst m. clear H E.
  destruct Hwf as [[Hh Hw] Hs Hg Hso Hgo _].
  split; [reflexivity|]. split; [exact Hle|]. split; [exact Hex|].
  split; [exact Hh|]. split; [exact Hw|]. split.
  - intros i j line Hline Hlen Hj. cbn [width parsed_maze] in Hj.
    assert (Hi : (i < length (splitlines contents))%nat)
      by (apply nth_error_Some; congruence).
    destruct (wall_at_parsed (splitlines contents) w i j Hi Hj) as (H1 & H2 & _).
    eexists. split; [exact H1|]. rewrite H2. f_equal.
    unfold cell_wall, char_at. rewrite Hline.
    replace (nth_error line j) with (@None N); [reflexivity|].
    symmetry. now apply nth_error_None.
  - exists s0, g. unfold open_cell in Hso, Hgo.
    apply andb_true_iff in Hso, Hgo. destruct Hso as [Hs1 Hs2], Hgo as [Hg1 Hg2].
    apply negb_true_iff in Hs2, Hg2. auto 10.
Qed.

Lemma Maze_init_grid_witness :
  height ragged_maze = Z.of_nat (length (splitlines ragged_text)) /\
  (forall line, In line (splitlines ragged_text) ->
                Z.of_nat (length line) <= width ragged_maze) /\
  (exists line, In line (splitlines ragged_text) /\
                Z.of_nat (length line) = width ragged_maze) /\
  Z.of_nat (length (walls ragged_maze)) = height ragged_maze /\
  Forall (fun row => Z.of_nat (length row) = width ragged_maze)
    (walls ragged_maze) /\
  (forall i j line,
     nth_error (splitlines ragged_text) i = Some line ->
     (length line <= j)%nat -> Z.of_nat j < width ragged_maze ->
     exists row, nth_error (walls ragged_maze) i = Some row /\
                 nth_error row j = Some false) /\
  exists s0 g,
    start ragged_maze = Some s0 /\ goal ragged_maze = Some g /\
    in_bounds ragged_maze s0 = true /\ in_bounds ragged_maze g = true /\
    wall_at ragged_maze s0 = false /\ wall_at ragged_maze g = false.
Proof.
  apply (Maze_init_grid ragged_text ragged_maze).
  vm_compute. reflexivity.
Defined.

(** ** Further properties of the frontiers *)

Lemma queue_remove_cons node (f : QueueFrontier.t) :
  QueueFrontier.remove (node :: f) = Ok (node, f).
Proof. reflexivity. Qed.

Lemma contains_state_app f1 f2 s :
  StackFrontier.contains_state (f1 ++ f2) s
  = StackFrontier.contains_state f1 s || StackFrontier.contains_state f2 s.
Proof. unfold StackFrontier.contains_state. apply existsb_app. Qed.

(** X1: [remove] fails exactly on the empty frontier, with the exception
    "empty frontier", for the stack and for the queue; on any other
    frontier it returns a node and a frontier one node shorter. *)
Theorem remove_raises_iff_empty (f : StackFrontier.t) :
  (forall e, StackFrontier.remove f = Raise e <->
             f = [] /\ e = Exception "empty frontier") /\
  (forall e, QueueFrontier.remove f = Raise e <->
             f = [] /\ e = Exception "empty frontier") /\
  (forall node f', StackFrontier.remove f = Ok (node, f') ->
                   length f = S (length f')) /\
  (forall node f', QueueFrontier.remove f = Ok (node, f') ->
                   length f = S (length f')).
Proof.
  destruct (frontier_cases f) as [->|(f0 & n & ->)].
  - split; [|split; [|split]].
    + intros e. split; [intros E; inversion E; auto | intros [_ ->]; reflexivity].
    + intros e. split; [intros E; inversion E; auto | intros [_ ->]; reflexivity].
    + intros node f' E. discriminate.
    + intros node f' E. discriminate.
  - rewrite stack_remove_snoc.
    assert (Hq : exists n' f1, f0 ++ [n] = n' :: f1)
      by (destruct f0; simpl; eauto).
    destruct Hq as (n' & f1 & Hq).
    assert (Hne : f0 ++ [n] <> []) by (rewrite Hq; discriminate).
    split; [|split; [|split]].
    + intros e. split; [discriminate | intros [E _]; contradiction].
    + intros e. rewrite Hq, queue_remove_cons.
      split; [discriminate | intros [E _]; discriminate].
    + intros node f' E. inversion E; subst. rewrite length_app. simpl. lia.
    + intros node f' E. rewrite Hq in *. rewrite queue_remove_cons in E.
      inversion E; subst. reflexivity.
Qed.

(** X2: emptying a frontier.  After the adds of [nodes] on a fresh frontier,
    [n] successive calls of [remove] return the first [n] nodes in reverse
    order of insertion for the stack, in order of insertion for the queue. *)
Theorem drain_order (nodes : list Node) (n : nat) :
  drain StackFrontier.remove n (add_all StackFrontier.init nodes)
  = firstn n (rev nodes) /\
  drain QueueFrontier.remove n (add_all QueueFrontier.init nodes)
  = firstn n nodes.
Proof.
  rewrite !add_all_app. simpl. split.
  - revert nodes. induction n as [|n IH]; intros nodes; [reflexivity|].
    destruct (frontier_cases nodes) as [->|(f0 & x & ->)]; [reflexivity|].
    cbn [drain]. rewrite stack_remove_snoc, rev_app_distr. simpl. now rewrite IH.
  - revert nodes. induction n as [|n IH]; intros nodes; [reflexivity|].
    destruct nodes as [|x nodes]; [reflexivity|].
    cbn [drain]. rewrite queue_remove_cons. simpl. now rewrite IH.
Qed.

(** X3: [contains_state] follows the content.  Right after [add] of a node
    its state is contained, and no other state changes; after a [remove]
    the state of the removed node is contained only if another node with
    that state remains (stack and queue alike); nothing is contained in a
    frontier on which [remove] fails. *)
Theorem contains_state_add_remove (f : StackFrontier.t) (node : Node) (s : State) :
  StackFrontier.contains_state (StackFrontier.add f node) s
  = StackFrontier.contains_state f s || bool_decide (state node = s) /\
  match StackFrontier.remove f with
  | Ok (n, f') =>
      StackFrontier.contains_state f s
      = StackFrontier.contains_state f' s || bool_decide (state n = s)
  | Raise _ => StackFrontier.contains_state f s = false
  end /\
  match QueueFrontier.remove f with
  | Ok (n, f') =>
      QueueFrontier.contains_state f s
      = QueueFrontier.contains_state f' s || bool_decide (state n = s)
  | Raise _ => QueueFrontier.contains_state f s = false
  end.
Proof.
  split; [|split].
  - unfold StackFrontier.add. rewrite contains_state_app. simpl.
    now rewrite orb_false_r.
  - destruct (frontier_cases f) as [->|(f0 & n & ->)]; [reflexivity|].
    rewrite stack_remove_snoc, contains_state_app. simpl.
    now rewrite orb_false_r.
  - destruct f as [|n f]; [reflexivity|].
    rewrite queue_remove_cons. unfold QueueFrontier.contains_state. simpl.
    apply orb_comm.
Qed.

(** ** Further properties of [neighbors] *)

Lemma shift_opposite s a : shift (shift s a) (opposite a) = s.
Proof.
  destruct s as [r c], a; unfold shift; simpl; f_equal; lia.
Qed.

(** X4: moves can be taken back.  On a rectangular wall matrix, a move
    [(a, t)] that [neighbors] returns from an open cell [s] is answered at
    [t] by the move [(opposite a, s)]. *)
Theorem neighbors_reversible (m : Maze) (s t : State) (a : Action)
    (l : list (Action * State)) :
  rectangular m -> open_cell m s = true ->
  neighbors m s = Ok l -> In (a, t) l ->
  exists l', neighbors m t = Ok l' /\ In (opposite a, s) l'.
Proof.
  intros Hrect Hs Hn Hin.
  rewrite neighbors_open_moves in Hn by assumption. inversion Hn; subst l.
  apply open_moves_shift in Hin. destruct Hin as [-> Ht].
  exists (open_moves m (shift s a)).
  split; [now apply neighbors_open_moves|].
  rewrite <- (shift_opposite s a) at 1.
  apply open_moves_intro. now rewrite shift_opposite.
Qed.

Lemma neighbors_reversible_witness :
  exists l', neighbors ragged_maze (1, 1) = Ok l' /\ In (up, (0, 1)) l'.
Proof.
  apply (neighbors_reversible ragged_maze (0, 1) (1, 1) down
           [(down, (1, 1)); (left, (0, 0))]).
  - split; [reflexivity | repeat constructor].
  - reflexivity.
  - reflexivity.
  - now left.
Defined.

(** ** Further properties of the construction *)

Lemma count_nth_pos c line j :
  nth_error line j = Some c -> 1 <= count c line.
Proof.
  revert j. induction line as [|x line IH]; intros j H.
  - destruct j; discriminate.
  - rewrite count_cons. pose proof (count_nonneg c line).
    destruct j as [|j]; simpl in H.
    + inversion H; subst. rewrite N.eqb_refl. lia.
    + specialize (IH j H). destruct (N.eqb x c); lia.
Qed.

Lemma count_nth_two c line j l :
  j <> l -> nth_error line j = Some c -> nth_error line l = Some c ->
  2 <= count c line.
Proof.
  revert j l. induction line as [|x line IH]; intros j l Hne Hj Hl.
  - destruct j; discriminate.
  - rewrite count_cons. destruct j as [|j], l as [|l]; simpl in Hj, Hl.
    + congruence.
    + inversion Hj; subst. rewrite N.eqb_refl.
      pose proof (count_nth_pos c line l Hl). lia.
    + inversion Hl; subst. rewrite N.eqb_refl.
      pose proof (count_nth_pos c line j Hj). lia.
    + assert (2 <= count c line) by (apply (IH j l); [congruence|assumption..]).
      destruct (N.eqb x c); lia.
Qed.

Lemma count_in_lines_nonneg c lines : 0 <= count_in_lines c lines.
Proof.
  induction lines as [|line lines IH]; [reflexivity|].
  rewrite count_in_lines_cons. pose proof (count_nonneg c line). lia.
Qed.

Lemma count_in_lines_char c lines i j :
  char_at lines i j = Some c -> 1 <= count_in_lines c lines.
Proof.
  revert i. induction lines as [|line lines IH]; intros i H.
  - destruct i; discriminate.
  - rewrite count_in_lines_cons.
    pose proof (count_nonneg c line). pose proof (count_in_lines_nonneg c lines).
    destruct i as [|i]; unfold char_at in H; simpl in H.
    + pose proof (count_nth_pos c line j H). lia.
    + specialize (IH i H). lia.
Qed.

Lemma count_in_lines_two c lines i j k l :
  (i, j) <> (k, l) ->
  char_at lines i j = Some c -> char_at lines k l = Some c ->
  2 <= count_in_lines c lines.
Proof.
  revert i k. induction lines as [|line lines IH]; intros i k Hne Hi Hk.
  - destruct i; discriminate.
  - rewrite count_in_lines_cons.
    pose proof (count_nonneg c line). pose proof (count_in_lines_nonneg c lines).
    destruct i as [|i], k as [|k].
    + unfold char_at in Hi, Hk; simpl in Hi, Hk.
      assert (j <> l) by congruence.
      pose proof (count_nth_two c line j l H1 Hi Hk). lia.
    + unfold char_at in Hi; simpl in Hi.
      pose proof (count_nth_pos c line j Hi).
      pose proof (count_in_lines_char c lines k l Hk). lia.
    + unfold char_at in Hk; simpl in Hk.
      pose proof (count_nth_pos c line l Hk).
      pose proof (count_in_lines_char c lines i j Hi). lia.
    + assert (2 <= count_in_lines c lines)
        by (apply (IH i k); [congruence | exact Hi | exact Hk]).
      lia.
Qed.

(** X5: the walls are the [#] characters.  After a successful construction
    every cell of the grid has an entry in the wall matrix, and the entry is
    [True] exactly when the text has [#] at that line and column. *)
Theorem Maze_init_walls (contents : Text) (m : Maze) (i j : nat) :
  Maze_init contents = Ok m ->
  Z.of_nat i < height m -> Z.of_nat j < width m ->
  exists row b,
    nth_error (walls m) i = Some row /\ nth_error row j = Some b /\
    (b = true <-> char_at (splitlines contents) i j = Some chr_hash).
Proof.
  intros H Hi Hj.
  destruct (Maze_init_cases contents)
    as [[_ E]|[(_ & _ & E)|(_ & _ & w & _ & _ & E)]];
    rewrite E in H; try discriminate.
  inversion H; subst m. clear H E. cbn [height width parsed_maze] in Hi, Hj.
  destruct (wall_at_parsed (splitlines contents) w i j) as (H1 & H2 & _);
    [lia | assumption |].
  eexists _, _. split; [exact H1|]. split; [exact H2|].
  unfold cell_wall. destruct (char_at (splitlines contents) i j) as [c|].
  - rewrite N.eqb_eq. split; [intros ->; reflexivity | intros E; now inversion E].
  - split; discriminate.
Qed.

Lemma Maze_init_walls_witness :
  exists row b,
    nth_error (walls ragged_maze) 1 = Some row /\ nth_error row 2 = Some b /\
    (b = true <-> char_at (splitlines ragged_text) 1 2 = Some chr_hash).
Proof.
  apply (Maze_init_walls ragged_text ragged_maze 1 2).
  - vm_compute. reflexivity.
  - reflexivity.
  - reflexivity.
Defined.

(** X6: [start] and [goal] are where the markers are.  After a successful
    construction [start] is the line and column of the text's [A], [goal]
    that of its [B], no other position of the text holds an [A] or a [B],
    and the two cells differ. *)
Theorem Maze_init_markers (contents : Text) (m : Maze) :
  Maze_init contents = Ok m ->
  exists i j i' j',
    start m = Some (Z.of_nat i, Z.of_nat j) /\
    goal m = Some (Z.of_nat i', Z.of_nat j') /\
    (forall k l, char_at (splitlines contents) k l = Some chr_A <->
                 (k, l) = (i, j)) /\
    (forall k l, char_at (splitlines contents) k l = Some chr_B <->
                 (k, l) = (i', j')) /\
    (i, j) <> (i', j').
Proof.
  intros H.
  destruct (Maze_init_cases contents)
    as [[_ E]|[(_ & _ & E)|(HA & HB & w & Hle & _ & E)]];
    rewrite E in H; try discriminate.
  inversion H; subst m. clear H E.
  set (lines := splitlines contents) in *.
  assert (HcA : count_in_lines chr_A lines = 1)
    by (unfold lines; now rewrite splitlines_count).
  assert (HcB : count_in_lines chr_B lines = 1)
    by (unfold lines; now rewrite splitlines_count).
  destruct (scan_marker chr_A lines w Hle) as (i & j & Hs & _ & _ & Hc); [lia|].
  destruct (scan_marker chr_B lines w Hle) as (i' & j' & Hs' & _ & _ & Hc'); [lia|].
  exists i, j, i', j'. split; [exact Hs|]. split; [exact Hs'|].
  split; [|split].
  - intros k l. split.
    + intros Hk. destruct (decide ((k, l) = (i, j))) as [|Hne]; [assumption|].
      pose proof (count_in_lines_two chr_A lines k l i j Hne Hk Hc). lia.
    + intros Heq. inversion Heq; subst. exact Hc.
  - intros k l. split.
    + intros Hk. destruct (decide ((k, l) = (i', j'))) as [|Hne]; [assumption|].
      pose proof (count_in_lines_two chr_B lines k l i' j' Hne Hk Hc'). lia.
    + intros Heq. inversion Heq; subst. exact Hc'.
  - intros Heq. inversion Heq; subst. rewrite Hc in Hc'. discriminate.
Qed.

Lemma Maze_init_markers_witness :
  exists i j i' j',
    start ragged_maze = Some (Z.of_nat i, Z.of_nat j) /\
    goal ragged_maze = Some (Z.of_nat i', Z.of_nat j') /\
    (forall k l, char_at (splitlines ragged_text) k l = Some chr_A <->
                 (k, l) = (i, j)) /\
    (forall k l, char_at (splitlines ragged_text) k l = Some chr_B <->
                 (k, l) = (i', j')) /\
    (i, j) <> (i', j').
Proof.
  apply (Maze_init_markers ragged_text ragged_maze).
  vm_compute. reflexivity.
Defined.

(** ** Further properties of [solve] *)

Lemma path_states_ancestors node :
  path_states node = state node :: ancestors node.
Proof. destruct node as [s [p|] a]; reflexivity. Qed.

Lemma chain_backtrack_path m s0 node :
  chain m s0 node ->
  exists acts,
    reconstruct node = (map Some acts, walk s0 acts) /\
    List.last (walk s0 acts) s0 = state node /\
    path_states node = rev (walk s0 acts) ++ [s0].
Proof.
  intros Hc.
  assert (H : exists acts,
             (forall A C, backtrack node A C
                          = (A ++ rev (map Some acts), C ++ rev (walk s0 acts))) /\
             List.last (walk s0 acts) s0 = state node /\
             path_states node = rev (walk s0 acts) ++ [s0]).
  { induction Hc as [|p a s Hp IH Hin].
    - exists []. simpl. split; [|split; reflexivity].
      intros. now rewrite !app_nil_r.
    - destruct IH as (acts & Hb & Hl & Hps). exists (acts ++ [a]).
      apply open_moves_shift in Hin. destruct Hin as [Hs _].
      rewrite walk_app, Hl. simpl. split; [|split].
      + intros A C. rewrite Hb, map_app, !rev_app_distr. simpl.
        rewrite <- !app_assoc. simpl. now rewrite Hs.
      + rewrite last_last. auto.
      + rewrite rev_app_distr. simpl. now rewrite Hps, Hs. }
  destruct H as (acts & Hb & Hl & Hps). exists acts.
  split; [|split; assumption].
  unfold reconstruct. rewrite Hb. simpl. now rewrite !rev_involutive.
Qed.

Lemma chain_path_open m s0 node :
  open_cell m s0 = true -> chain m s0 node ->
  forall s, In s (path_states node) -> open_cell m s = true.
Proof.
  intros H0. induction 1 as [|p a s Hp IH Hin]; intros t Ht.
  - destruct Ht as [<-|[]]. assumption.
  - destruct Ht as [<-|Ht]; [|now apply IH].
    now apply open_moves_shift in Hin.
Qed.

(** The node a successful search ends on. *)
Lemma solve_success_node (m : Maze) (s0 g : State) (fuel : nat) (m' : Maze) :
  WfMaze m s0 g ->
  solve fuel m = Some (m', Ok tt) ->
  exists node st,
    m' = set_solution (set_run m st) (reconstruct node) /\
    chain m s0 node /\ state node = g /\
    NoDup (ancestors node) /\
    (forall s, In s (ancestors node) -> s ∈ run_explored st) /\
    (g ∉ run_explored st) /\
    run_num_explored st = Z.of_nat (size (run_explored st)) + 1.
Proof.
  intros Hwf Hsolve.
  destruct (solve_inv_loop m s0 fuel m' (Ok tt) (wf_start _ _ _ Hwf) Hsolve)
    as (st & [sol|e] & Hloop & Hm); [|destruct Hm; discriminate].
  destruct Hm as [-> _].
  set (fuel' := Nat.max fuel (S (size (cells m)))).
  destruct (solve_loop_total m s0 g (cells m)
              (fun _ st => forall n, In n (frontier st) ->
                 NoDup (ancestors n) /\
                 forall s, In s (ancestors n) -> s ∈ run_explored st)
              (fun _ st r => forall sol, r = Ok sol ->
                 exists node, sol = reconstruct node /\ chain m s0 node /\
                   state node = g /\ NoDup (ancestors node) /\
                   forall s, In s (ancestors node) -> s ∈ run_explored st)
              Hwf (fun s => reachable_cells m s0 g s Hwf))
    with (fuel := fuel') as (st' & r' & Hloop' & HP & HQ).
  - intros n [<-|[]]. split; [apply NoDup_nil_2 | intros s []].
  - intros log st1 HI HK. destruct (step m st1) as [st2 r|st2] eqn:Hstep.
    + intros sol1 ->.
      destruct (Inv_done m s0 g Hwf log st1 st2 _ HI Hstep)
        as [_ [[_ E]|(f & node & E & Hg & Hr)]]; [discriminate|].
      destruct (step_goal m g st1 f node (wf_goal _ _ _ Hwf) E Hg) as [Hs _].
      rewrite Hs in Hstep. inversion Hstep; subst st2.
      assert (Hin : In node (frontier st1))
        by (rewrite E; apply in_app_iff; right; now left).
      destruct (HK node Hin) as [Hnd Hsub].
      exists node. inversion Hr. split; [reflexivity|].
      split; [now apply (inv_chain _ _ _ _ _ HI)|]. auto.
    + destruct (Inv_again m s0 g Hwf log st1 st2 HI Hstep)
        as (_ & _ & f & node & E & Hng & E').
      assert (Hin : In node (frontier st1))
        by (rewrite E; apply in_app_iff; right; now left).
      assert (Hmono : forall s, s ∈ run_explored st1 -> s ∈ run_explored st2).
      { destruct (step_expand m g st1 f node (wf_rect _ _ _ Hwf)
                    (wf_goal _ _ _ Hwf) E Hng) as [Hs _].
        rewrite Hs in Hstep. inversion Hstep; subst st2. simpl. set_solver. }
      assert (Hnode : state node ∈ run_explored st2).
      { destruct (step_expand m g st1 f node (wf_rect _ _ _ Hwf)
                    (wf_goal _ _ _ Hwf) E Hng) as [Hs _].
        rewrite Hs in Hstep. inversion Hstep; subst st2. simpl. set_solver. }
      intros n Hn. rewrite E' in Hn. apply in_app_iff in Hn.
      destruct Hn as [Hn|Hn].
      * destruct (HK n) as [Hnd Hsub]; [rewrite E; apply in_app_iff; now left|].
        split; [assumption | auto].
      * pose proof (inv_nodup _ _ _ _ _ HI) as Hndf.
        rewrite E, map_app in Hndf. apply NoDup_app in Hndf.
        destruct Hndf as (Hndf & _ & _).
        destruct (children_of_spec m s0 node
                    ({[ state node ]} ∪ run_explored st1)
                    (open_moves m (state node))
                    (inv_chain _ _ _ _ _ HI node Hin) (fun a t H => H) f Hndf)
          as (_ & H2 & _).
        destruct (H2 n Hn) as (_ & _ & a & _ & Hceq).
        destruct (HK node Hin) as [Hnd Hsub].
        rewrite Hceq. unfold ancestors. cbn [parent].
        rewrite path_states_ancestors. split.
        -- apply NoDup_cons. split; [|assumption].
           rewrite list_elem_of_In. intros Hc.
           apply (inv_fresh _ _ _ _ _ HI node Hin). auto.
        -- intros s [<-|Hs]; auto.
  - lia.
  - rewrite (loop_more_fuel m fuel fuel' _ _ Hloop) in Hloop' by lia.
    inversion Hloop'; subst st' r'.
    destruct (HQ sol eq_refl) as (node & -> & Hc & Hg & Hnd & Hsub).
    exists node, st. split; [reflexivity|].
    repeat (split; [assumption|]).
    split; [apply HP|].
    destruct (post_outcome _ _ _ _ _ _ HP) as [(Hr & _)|(_ & _ & _ & _ & Hn)];
      [discriminate | exact Hn].
Qed.

(** X7: an unsuccessful search has seen everything.  When the goal is not
    reachable, [solve] ends by the no-solution exception with [explored]
    holding exactly the states reachable from the start, [num_explored]
    being their number. *)
Theorem failed_solve_explores_reachable
    (m : Maze) (s0 g : State) (fuel : nat) :
  WfMaze m s0 g -> ~ reachable m g -> (size (cells m) < fuel)%nat ->
  exists m' e,
    solve fuel m = Some (m', Raise (Exception "no solution")) /\
    explored m' = Some e /\
    (forall s, s ∈ e <-> reachable m s) /\
    num_explored m' = Some (Z.of_nat (size e)).
Proof.
  intros Hwf Hnr Hfuel.
  destruct (solve_loop_total m s0 g (cells m)
              (fun _ _ => True)
              (fun _ st r => r = Raise (Exception "no solution") ->
                 forall s, s ∈ run_explored st <-> reachable m s)
              Hwf (fun s => reachable_cells m s0 g s Hwf))
    with (fuel := fuel) as (st & r & Hloop & HP & HQ).
  - exact I.
  - intros log st HI _. destruct (step m st) as [st' r|st'] eqn:Hstep; [|exact I].
    intros ->.
    destruct (Inv_done m s0 g Hwf log st st' _ HI Hstep)
      as [_ [[E _]|(f & node & _ & _ & Hr)]]; [|discriminate].
    destruct (step_empty m st E) as [Hs _].
    rewrite Hs in Hstep. inversion Hstep; subst st'.
    intros s. split.
    + now apply (inv_reach _ _ _ _ _ HI).
    + now apply (Inv_reach_all m s0 g Hwf log st HI E).
  - assumption.
  - rewrite (solve_of_loop m s0 fuel st r (wf_start _ _ _ Hwf) Hloop).
    destruct (post_outcome _ _ _ _ _ _ HP)
      as [(-> & _ & Hn)|(node & _ & Hc & Hg & _)].
    + eexists _, _. split; [reflexivity|]. simpl. split; [reflexivity|].
      split; [now apply HQ|]. now rewrite Hn.
    + exfalso. apply Hnr. rewrite <- Hg.
      apply (chain_reachable m s0); (apply Hwf || assumption).
Qed.

Lemma failed_solve_explores_reachable_witness :
  exists m' e,
    solve 4 maze_enclosed = Some (m', Raise (Exception "no solution")) /\
    explored m' = Some e /\
    (forall s, s ∈ e <-> reachable maze_enclosed s) /\
    num_explored m' = Some (Z.of_nat (size e)).
Proof.
  apply (failed_solve_explores_reachable maze_enclosed (0, 0) (0, 2) 4).
  - wf_by_computation.
  - intros Hr.
    assert (Hwf : WfMaze maze_enclosed (0, 0) (0, 2)) by wf_by_computation.
    assert (Hall : forall t, reachable maze_enclosed t -> t = (0, 0)).
    { intros t (s & Hs & Hrtc). inversion Hs; subst s.
      revert t Hrtc. apply (rtc_ind_r (fun t => t = (0, 0))); [reflexivity|].
      intros x y _ (a & l & Hn & Hin) ->.
      vm_compute in Hn. inversion Hn; subst l. destruct Hin. }
    specialize (Hall _ Hr). discriminate.
  - vm_compute. lia.
Defined.

(** X8: the solution is a simple path over open cells.  The start and the
    cells of a stored solution are pairwise distinct, and every cell lies
    in bounds and is not a wall. *)
Theorem solution_simple_open (m : Maze) (s0 g : State) (fuel : nat) (m' : Maze) :
  WfMaze m s0 g ->
  solve fuel m = Some (m', Ok tt) ->
  exists actions cs,
    solution m' = Some (actions, cs) /\
    NoDup (s0 :: cs) /\
    (forall c, In c cs -> in_bounds m c = true /\ wall_at m c = false).
Proof.
  intros Hwf Hsolve.
  destruct (solve_success_node m s0 g fuel m' Hwf Hsolve)
    as (node & st & -> & Hc & Hg & Hnd & Hsub & Hgn & _).
  destruct (chain_backtrack_path m s0 node Hc) as (acts & Hrec & _ & Hps).
  exists (map Some acts), (walk s0 acts). simpl. rewrite Hrec.
  split; [reflexivity|].
  assert (Hndp : NoDup (path_states node)).
  { rewrite path_states_ancestors. apply NoDup_cons. split; [|assumption].
    rewrite list_elem_of_In. intros Hin. apply Hsub in Hin. now rewrite Hg in Hin. }
  split.
  - rewrite Hps in Hndp. apply NoDup_ListNoDup, NoDup_rev in Hndp.
    rewrite rev_app_distr, rev_involutive in Hndp.
    now apply NoDup_ListNoDup.
  - intros c Hin.
    assert (Ho : open_cell m c = true).
    { apply (chain_path_open m s0 node (wf_start_open _ _ _ Hwf) Hc).
      rewrite Hps. apply in_app_iff. left. now apply in_rev in Hin. }
    unfold open_cell in Ho. apply andb_true_iff in Ho. destruct Ho as [H1 H2].
    apply negb_true_iff in H2. auto.
Qed.

Lemma solution_simple_open_witness :
  exists actions cs,
    solution (set_solution (set_run ragged_maze
                 (mkRun [mkNode (1, 0) (Some (mkNode (0, 0) None None)) (Some down)]
                    {[ (0, 0); (0, 1); (1, 1) ]} 4))
               ([Some right; Some down; Some down], [(0, 1); (1, 1); (2, 1)]))
    = Some (actions, cs) /\
    NoDup ((0, 0) :: cs) /\
    (forall c, In c cs ->
       in_bounds ragged_maze c = true /\ wall_at ragged_maze c = false).
Proof.
  apply (solution_simple_open ragged_maze (0, 0) (2, 1) 5).
  - wf_by_computation.
  - vm_compute. reflexivity.
Defined.

(** X9: the path is shorter than the search.  After a successful [solve]
    the number of cells of the stored solution is less than
    [num_explored], and every cell but the goal is in [explored]. *)
Theorem solution_shorter_than_search
    (m : Maze) (s0 g : State) (fuel : nat) (m' : Maze) :
  WfMaze m s0 g ->
  solve fuel m = Some (m', Ok tt) ->
  exists actions cs n e,
    solution m' = Some (actions, cs) /\
    num_explored m' = Some n /\ explored m' = Some e /\
    Z.of_nat (length cs) < n /\
    (forall c, In c cs -> c <> g -> c ∈ e).
Proof.
  intros Hwf Hsolve.
  destruct (solve_success_node m s0 g fuel m' Hwf Hsolve)
    as (node & st & -> & Hc & Hg & Hnd & Hsub & Hgn & Hn).
  destruct (chain_backtrack_path m s0 node Hc) as (acts & Hrec & _ & Hps).
  exists (map Some acts), (walk s0 acts), (run_num_explored st), (run_explored st).
  simpl. rewrite Hrec. repeat (split; [reflexivity|]).
  rewrite path_states_ancestors in Hps.
  assert (Hlen : length (ancestors node) = length (walk s0 acts)).
  { apply (f_equal (@length State)) in Hps.
    rewrite length_app, length_rev in Hps. simpl in Hps. lia. }
  split.
  - assert (length (ancestors node) <= size (run_explored st))%nat
      by (apply NoDup_length_size; assumption).
    lia.
  - intros c Hin Hne.
    assert (Hin' : In c (state node :: ancestors node)).
    { rewrite Hps. apply in_app_iff. left. now apply in_rev in Hin. }
    destruct Hin' as [Heq|Hin']; [congruence | now apply Hsub].
Qed.

Lemma solution_shorter_than_search_witness :
  exists actions cs n e,
    solution (set_solution (set_run maze_AB (mkRun [] {[ (0, 0) ]} 2))
                ([Some right], [(0, 1)]))
    = Some (actions, cs) /\
    num_explored (set_solution (set_run maze_AB (mkRun [] {[ (0, 0) ]} 2))
                    ([Some right], [(0, 1)])) = Some n /\
    explored (set_solution (set_run maze_AB (mkRun [] {[ (0, 0) ]} 2))
                ([Some right], [(0, 1)])) = Some e /\
    Z.of_nat (length cs) < n /\
    (forall c, In c cs -> c <> (0, 1) -> c ∈ e).
Proof.
  apply (solution_shorter_than_search maze_AB (0, 0) (0, 1) 3).
  - wf_by_computation.
  - vm_compute. reflexivity.
Defined.

Lemma neighbors_loop_same_grid m1 m2 :
  same_grid m1 m2 ->
  forall cands result,
    neighbors_loop m1 cands result = neighbors_loop m2 cands result.
Proof.
  intros (Hh & Hw & Hwalls & _ & _).
  induction cands as [|[a [r c]] cands IH]; intros result; simpl; [reflexivity|].
  rewrite Hh, Hw, Hwalls.
  destruct ((0 <=? r) && (r <? height m2) && (0 <=? c) && (c <? width m2));
    [|apply IH].
  destruct (py_index (walls m2) r) as [wrow|]; simpl; [|reflexivity].
  destruct (py_index wrow c) as [w|]; simpl; [|reflexivity].
  destruct w; simpl; apply IH.
Qed.

Lemma step_same_grid m1 m2 st :
  same_grid m1 m2 -> step m1 st = step m2 st.
Proof.
  intros Hsame. unfold step, neighbors.
  pose proof Hsame as (_ & _ & _ & _ & Hg). rewrite Hg.
  destruct (StackFrontier.empty (frontier st)); [reflexivity|].
  destruct (StackFrontier.remove (frontier st)) as [[node f]|]; [|reflexivity].
  destruct (goal m2) as [g|]; [|reflexivity].
  destruct (bool_decide (state node = g)); [reflexivity|].
  now rewrite (neighbors_loop_same_grid m1 m2 Hsame).
Qed.

Lemma loop_same_grid m1 m2 :
  same_grid m1 m2 -> forall fuel st, loop fuel m1 st = loop fuel m2 st.
Proof.
  intros Hsame. induction fuel as [|k IH]; intros st; simpl; [reflexivity|].
  rewrite (step_same_grid m1 m2 st Hsame).
  destruct (step m2 st); [reflexivity | apply IH].
Qed.

(** X10: [solve] starts afresh.  The call reads neither [solution] nor
    [num_explored] nor [explored]: on two objects with the same grid, start
    and goal it ends the same way with the same counter and explored set,
    and the same solution when it returns; and calling [solve] again on the
    object it left gives that object back. *)
Theorem solve_starts_afresh (m1 m2 : Maze) (fuel : nat) (m1' : Maze)
    (r : Result unit) :
  same_grid m1 m2 ->
  solve fuel m1 = Some (m1', r) ->
  (exists m2',
     solve fuel m2 = Some (m2', r) /\
     num_explored m2' = num_explored m1' /\
     (start m1 <> None -> explored m2' = explored m1') /\
     (r = Ok tt -> solution m2' = solution m1')) /\
  solve fuel m1' = Some (m1', r).
Proof.
  intros Hsame Hsolve.
  assert (Hself : same_grid m1 m1').
  { unfold solve in Hsolve. destruct (start m1) as [s|] eqn:Hst.
    - destruct (loop fuel m1 (initial_run s)) as [[st [sol|e]]|];
        inversion Hsolve; subst; repeat split; simpl; congruence.
    - inversion Hsolve; subst; repeat split; simpl; congruence. }
  assert (Hgen : forall m2, same_grid m1 m2 ->
            exists m2', solve fuel m2 = Some (m2', r) /\
              num_explored m2' = num_explored m1' /\
              (start m1 <> None -> explored m2' = explored m1') /\
              (r = Ok tt -> solution m2' = solution m1') /\
              (m2 = m1' -> m2' = m1')).
  { clear m2 Hsame. intros m2 Hsame.
    pose proof Hsame as (Hh & Hw & Hwalls & Hs & Hg).
    unfold solve in *. rewrite <- Hs.
    destruct (start m1) as [s|].
    - rewrite <- (loop_same_grid m1 m2 Hsame).
      destruct (loop fuel m1 (initial_run s)) as [[st [sol|e]]|];
        inversion Hsolve; subst; eexists; (split; [reflexivity|]);
        simpl; repeat split; try reflexivity; intros E; try discriminate;
        subst m2; reflexivity.
    - inversion Hsolve; subst. eexists. split; [reflexivity|].
      simpl. repeat split; try reflexivity; try contradiction; try discriminate.
      intros ->. reflexivity. }
  split.
  - destruct (Hgen m2 Hsame) as (m2' & H1 & H2 & H3 & H4 & _). eauto.
  - destruct (Hgen m1' Hself) as (m2' & H1 & _ & _ & _ & H5).
    now rewrite H1, (H5 eq_refl).
Qed.

Lemma solve_starts_afresh_witness :
  (exists m2',
     solve 3 (set_solution maze_AB ([Some up], [(5, 5)])) = Some (m2', Ok tt) /\
     num_explored m2'
     = num_explored (set_solution (set_run maze_AB (mkRun [] {[ (0, 0) ]} 2))
                       ([Some right], [(0, 1)])) /\
     (start maze_AB <> None ->
      explored m2'
      = explored (set_solution (set_run maze_AB (mkRun [] {[ (0, 0) ]} 2))
                    ([Some right], [(0, 1)]))) /\
     (Ok tt = Ok tt ->
      solution m2'
      = solution (set_solution (set_run maze_AB (mkRun [] {[ (0, 0) ]} 2))
                    ([Some right], [(0, 1)])))) /\
  solve 3 (set_solution (set_run maze_AB (mkRun [] {[ (0, 0) ]} 2))
             ([Some right], [(0, 1)]))
  = Some (set_solution (set_run maze_AB (mkRun [] {[ (0, 0) ]} 2))
            ([Some right], [(0, 1)]), Ok tt).
Proof.
  apply (solve_starts_afresh maze_AB
           (set_solution maze_AB ([Some up], [(5, 5)])) 3).
  - repeat split.
  - vm_compute. reflexivity.
Defined.

(** ** Rendering *)

Lemma print_cell_glyph (m : Maze) (s0 g : State) (i j : nat) (col : bool) :
  start m = Some s0 -> goal m = Some g ->
  wall_at m (Z.of_nat i, Z.of_nat j) = col ->
  print_cell m (match solution m with Some (_, cs) => Some cs | None => None end)
    i j col
  = Ok (glyph m (Z.of_nat i, Z.of_nat j)).
Proof.
  intros Hs Hg Hw. unfold print_cell, glyph. rewrite Hw, Hs, Hg.
  destruct col; [reflexivity|].
  destruct (solution m) as [[acts cs]|];
    repeat case_bool_decide; simplify_eq; done.
Qed.

Lemma print_row_glyphs (m : Maze) (s0 g : State) (i : nat) :
  start m = Some s0 -> goal m = Some g ->
  forall row j out,
    (forall k c, nth_error row k = Some c ->
                 wall_at m (Z.of_nat i, Z.of_nat (j + k)) = c) ->
    print_row m (match solution m with Some (_, cs) => Some cs | None => None end)
      i j row out
    = (out ++ map (fun k => glyph m (Z.of_nat i, Z.of_nat k)) (seq j (length row)),
       Ok tt).
Proof.
  intros Hs Hg. induction row as [|col row IH]; intros j out Hrow.
  - simpl. now rewrite app_nil_r.
  - cbn [print_row].
    rewrite (print_cell_glyph m s0 g i j col Hs Hg).
    2:{ specialize (Hrow 0%nat col eq_refl). now rewrite Nat.add_0_r in Hrow. }
    rewrite IH.
    + simpl. now rewrite <- app_assoc.
    + intros k c Hk. specialize (Hrow (S k) c Hk).
      now replace (S j + k)%nat with (j + S k)%nat by lia.
Qed.

Lemma print_rows_glyphs (m : Maze) (s0 g : State) :
  start m = Some s0 -> goal m = Some g ->
  forall rows i out,
    (forall k row, nth_error rows k = Some row ->
                   nth_error (walls m) (i + k) = Some row /\
                   length row = Z.to_nat (width m)) ->
    print_rows m (match solution m with Some (_, cs) => Some cs | None => None end)
      i rows out
    = (out ++ flat_map (fun k => map (fun j => glyph m (Z.of_nat k, Z.of_nat j))
                                   (range (width m)) ++ [chr_LF])
                (seq i (length rows)),
       Ok tt).
Proof.
  intros Hs Hg. induction rows as [|row rows IH]; intros i out Hrows.
  - simpl. now rewrite app_nil_r.
  - cbn [print_rows].
    destruct (Hrows 0%nat row eq_refl) as [Hrow Hlen].
    rewrite Nat.add_0_r in Hrow.
    rewrite (print_row_glyphs m s0 g i Hs Hg).
    2:{ intros k c Hk. unfold wall_at. cbn [fst snd].
        rewrite !Nat2Z.id, Hrow. simpl. now rewrite Hk. }
    rewrite IH.
    + simpl. unfold range. rewrite Hlen, <- !app_assoc. reflexivity.
    + intros k r Hk. specialize (Hrows (S k) r Hk).
      now replace (S i + k)%nat with (i + S k)%nat by lia.
Qed.

Lemma Maze_print_picture (m : Maze) (s0 g : State) :
  rectangular m -> start m = Some s0 -> goal m = Some g ->
  Maze_print m = (picture m, Ok tt).
Proof.
  intros [Hh Hw] Hs Hg. unfold Maze_print.
  rewrite (print_rows_glyphs m s0 g Hs Hg).
  - unfold picture, range. replace (Z.to_nat (height m)) with (length (walls m)) by lia.
    now rewrite <- app_assoc.
  - intros k row Hk. split; [exact Hk|].
    rewrite Forall_forall in Hw.
    specialize (Hw row (proj2 (list_elem_of_In _ _) (nth_error_In _ _ Hk))). lia.
Qed.

(** *** Counting glyphs *)

Lemma count_filter c (l : Text) :
  count c l = Z.of_nat (length (filter (fun x => x = c) l)).
Proof.
  induction l as [|x l IH]; [reflexivity|].
  rewrite count_cons, filter_cons, IH.
  destruct (N.eqb_spec x c) as [->|Hne].
  - rewrite decide_True by reflexivity. simpl length. lia.
  - rewrite decide_False by assumption. lia.
Qed.

Lemma count_map_filter (f : State -> N) (c : N) (ps : list State) :
  count c (map f ps) = Z.of_nat (length (filter (fun p => f p = c) ps)).
Proof.
  induction ps as [|p ps IH]; [reflexivity|].
  cbn [map]. rewrite count_cons, filter_cons, IH.
  destruct (N.eqb_spec (f p) c) as [E|E].
  - rewrite decide_True by assumption. simpl length. lia.
  - rewrite decide_False by assumption. lia.
Qed.

Lemma count_row_glyphs (m : Maze) (c : N) (i : nat) (js : list nat) :
  c <> chr_LF ->
  count c (map (fun j => glyph m (Z.of_nat i, Z.of_nat j)) js ++ [chr_LF])
  = Z.of_nat (length (filter (fun p : State => glyph m p = c)
                        (map (fun j => ((Z.of_nat i, Z.of_nat j) : State)) js))).
Proof.
  intros Hc. rewrite count_app, count_cons.
  replace (N.eqb chr_LF c) with false
    by (symmetry; apply N.eqb_neq; congruence).
  change (count c []) with 0.
  rewrite <- (count_map_filter (glyph m) c), map_map. lia.
Qed.

Lemma count_grid_glyphs (m : Maze) (c : N) (w : Z) (rows : list nat) :
  c <> chr_LF ->
  count c (flat_map (fun i => map (fun j => glyph m (Z.of_nat i, Z.of_nat j))
                                (range w) ++ [chr_LF]) rows)
  = Z.of_nat (length (filter (fun p : State => glyph m p = c)
       (flat_map (fun i => map (fun j => ((Z.of_nat i, Z.of_nat j) : State))
                             (range w)) rows))).
Proof.
  intros Hc. induction rows as [|i rows IH]; [reflexivity|].
  cbn [flat_map]. rewrite count_app, filter_app, length_app, Nat2Z.inj_add.
  rewrite (count_row_glyphs m c i _ Hc), IH. reflexivity.
Qed.

Lemma count_picture (m : Maze) (c : N) :
  c <> chr_LF ->
  count c (picture m)
  = Z.of_nat (length (filter (fun p : State => glyph m p = c) (grid_list m))).
Proof.
  intros Hc. unfold picture, grid_list.
  assert (Hlf : N.eqb chr_LF c = false) by (apply N.eqb_neq; congruence).
  rewrite !count_app, !count_cons, Hlf. change (count c []) with 0.
  rewrite (count_grid_glyphs m c _ _ Hc). lia.
Qed.

Lemma grid_row_NoDup (a : nat) (js : list nat) :
  NoDup js -> NoDup (map (fun j => ((Z.of_nat a, Z.of_nat j) : State)) js).
Proof.
  induction 1 as [|j js Hj Hjs IH]; simpl; constructor; [|assumption].
  rewrite list_elem_of_In, in_map_iff. intros (j' & E & Hin).
  inversion E as [E']. apply Nat2Z.inj in E'. subst j'.
  apply Hj. now apply list_elem_of_In.
Qed.

Lemma grid_list_NoDup (m : Maze) : NoDup (grid_list m).
Proof.
  unfold grid_list, range. generalize (Z.to_nat (height m)) as h.
  assert (Hjs : NoDup (seq 0 (Z.to_nat (width m)))) by apply NoDup_seq.
  revert Hjs. generalize (seq 0 (Z.to_nat (width m))) as js. intros js Hjs h.
  generalize 0%nat as a. induction h as [|h IH]; intros a; [constructor|].
  cbn [seq flat_map]. apply NoDup_app. split; [|split].
  - now apply grid_row_NoDup.
  - intros p Hp Hq. apply list_elem_of_In in Hp, Hq.
    apply in_map_iff in Hp. destruct Hp as (j & <- & _).
    apply in_flat_map in Hq. destruct Hq as (i & Hi & Hq).
    apply in_map_iff in Hq. destruct Hq as (j' & E & _).
    apply in_seq in Hi. inversion E. lia.
  - apply IH.
Qed.

Lemma in_bounds_grid_list (m : Maze) (p : State) :
  in_bounds m p = true -> p ∈ grid_list m.
Proof.
  intros Hb. apply in_bounds_iff in Hb. destruct p as [r c]. simpl in Hb.
  unfold grid_list. apply list_elem_of_In, in_flat_map.
  exists (Z.to_nat r). split.
  - unfold range. apply in_seq. lia.
  - apply in_map_iff. exists (Z.to_nat c). split.
    + f_equal; lia.
    + unfold range. apply in_seq. lia.
Qed.

Lemma filter_length_NoDup (P : State -> Prop) `{forall p, Decision (P p)}
    (G L : list State) :
  NoDup G -> NoDup L ->
  (forall p, p ∈ L <-> P p /\ p ∈ G) ->
  length (filter P G) = length L.
Proof.
  intros HG HL Hiff. apply Permutation_length, NoDup_Permutation.
  - now apply NoDup_filter.
  - assumption.
  - intros p. rewrite list_elem_of_filter. symmetry. apply Hiff.
Qed.

Lemma glyph_start_iff (m : Maze) (p : State) :
  glyph m p = chr_A <-> wall_at m p = false /\ start m = Some p.
Proof.
  unfold glyph. destruct (wall_at m p);
    [split; [discriminate | intros [? _]; discriminate]|].
  case_bool_decide; [tauto|].
  case_bool_decide; [split; [discriminate | tauto]|].
  destruct (solution m) as [[acts cs]|]; [case_bool_decide|];
    (split; [discriminate | tauto]).
Qed.

Lemma glyph_goal_iff (m : Maze) (p : State) :
  glyph m p = chr_B <->
  wall_at m p = false /\ start m <> Some p /\ goal m = Some p.
Proof.
  unfold glyph. destruct (wall_at m p);
    [split; [discriminate | intros [? _]; discriminate]|].
  case_bool_decide; [split; [discriminate | tauto]|].
  case_bool_decide; [tauto|].
  destruct (solution m) as [[acts cs]|]; [case_bool_decide|];
    (split; [discriminate | tauto]).
Qed.

Lemma glyph_path_iff (m : Maze) (p : State) :
  glyph m p = glyph_path <->
  wall_at m p = false /\ start m <> Some p /\ goal m <> Some p /\
  exists acts cs, solution m = Some (acts, cs) /\ p ∈ cs.
Proof.
  unfold glyph. destruct (wall_at m p);
    [split; [discriminate | intros [? _]; discriminate]|].
  case_bool_decide; [split; [discriminate | tauto]|].
  case_bool_decide; [split; [discriminate | tauto]|].
  destruct (solution m) as [[acts cs]|].
  - case_bool_decide.
    + split; [eauto 10 | reflexivity].
    + split; [discriminate|]. intros (_ & _ & _ & a' & c' & E & Hin).
      inversion E; subst. contradiction.
  - split; [discriminate|]. intros (_ & _ & _ & a' & c' & E & _). discriminate.
Qed.

Lemma open_cell_same_grid (m1 m2 : Maze) (p : State) :
  same_grid m1 m2 ->
  wall_at m2 p = wall_at m1 p /\ in_bounds m2 p = in_bounds m1 p.
Proof.
  intros (Hh & Hw & Hwalls & _ & _).
  unfold wall_at, in_bounds. now rewrite Hh, Hw, Hwalls.
Qed.

Lemma WfMaze_same_grid (m1 m2 : Maze) (s0 g : State) :
  same_grid m1 m2 -> WfMaze m1 s0 g -> WfMaze m2 s0 g.
Proof.
  intros Hsame [[Hr1 Hr2] Hs Hg Hso Hgo Hd].
  pose proof Hsame as (Hh & Hw & Hwalls & Hst & Hgl).
  constructor.
  - split; [now rewrite <- Hh, <- Hwalls | now rewrite <- Hw, <- Hwalls].
  - now rewrite <- Hst.
  - now rewrite <- Hgl.
  - unfold open_cell.
    destruct (open_cell_same_grid m1 m2 s0 Hsame) as [-> ->]. exact Hso.
  - unfold open_cell.
    destruct (open_cell_same_grid m1 m2 g Hsame) as [-> ->]. exact Hgo.
  - assumption.
Qed.

(** X11: what [print] writes.  On a maze with a rectangular wall matrix and
    [start] and [goal] assigned, [print] does not raise and writes an empty
    line, then for each row one line with one glyph per column, then an
    empty line; the glyph of a cell is the wall glyph if the cell is a wall,
    else [A] at the start, else [B] at the goal, else [*] if the cell is in
    the stored solution, else a space. *)
Theorem Maze_print_renders (m : Maze) (s0 g : State) :
  rectangular m -> start m = Some s0 -> goal m = Some g ->
  Maze_print m
  = ([chr_LF] ++
     flat_map (fun i => map (fun j => glyph m (Z.of_nat i, Z.of_nat j))
                          (range (width m)) ++ [chr_LF])
              (range (height m)) ++
     [chr_LF],
     Ok tt) /\
  (forall p, glyph m p
             = if wall_at m p then glyph_wall
               else if bool_decide (p = s0) then chr_A
               else if bool_decide (p = g) then chr_B
               else match solution m with
                    | Some (_, cs) =>
                        if bool_decide (p ∈ cs) then glyph_path else glyph_open
                    | None => glyph_open
                    end).
Proof.
  intros Hrect Hs Hg. split.
  - exact (Maze_print_picture m s0 g Hrect Hs Hg).
  - intros p. unfold glyph. rewrite Hs, Hg.
    destruct (wall_at m p); [reflexivity|].
    destruct (solution m) as [[acts cs]|];
      repeat case_bool_decide; simplify_eq; done.
Qed.

Lemma Maze_print_renders_witness :
  fst (Maze_print maze_enclosed)
  = [chr_LF] ++ [chr_A; glyph_wall; chr_B] ++ [chr_LF] ++ [chr_LF].
Proof.
  destruct (Maze_print_renders maze_enclosed (0, 0) (0, 2)) as [E _].
  - split; [reflexivity | repeat constructor].
  - reflexivity.
  - reflexivity.
  - rewrite E. reflexivity.
Defined.

(** X12: one start, one goal on the screen.  On a well-formed maze the
    text written by [print] holds exactly one [A] and exactly one [B], and
    no path glyph as long as no solution is stored. *)
Theorem Maze_print_markers (m : Maze) (s0 g : State) :
  WfMaze m s0 g ->
  exists out,
    Maze_print m = (out, Ok tt) /\
    count chr_A out = 1 /\ count chr_B out = 1 /\
    (solution m = None -> count glyph_path out = 0).
Proof.
  intros Hwf. exists (picture m).
  pose proof Hwf as [Hrect Hs Hg Hso Hgo Hd].
  split; [exact (Maze_print_picture m s0 g Hrect Hs Hg)|].
  unfold open_cell in Hso, Hgo. apply andb_true_iff in Hso, Hgo.
  destruct Hso as [Hsb Hsw], Hgo as [Hgb Hgw].
  apply negb_true_iff in Hsw, Hgw.
  split; [|split].
  - rewrite count_picture by discriminate.
    rewrite (filter_length_NoDup _ (grid_list m) [s0]); [reflexivity | | |].
    + apply grid_list_NoDup.
    + apply NoDup_singleton.
    + intros p. rewrite list_elem_of_singleton, glyph_start_iff. split.
      * intros ->. split; [auto|]. now apply in_bounds_grid_list.
      * intros [[_ E] _]. congruence.
  - rewrite count_picture by discriminate.
    rewrite (filter_length_NoDup _ (grid_list m) [g]); [reflexivity | | |].
    + apply grid_list_NoDup.
    + apply NoDup_singleton.
    + intros p. rewrite list_elem_of_singleton, glyph_goal_iff. split.
      * intros ->. split; [|now apply in_bounds_grid_list].
        split; [assumption|]. split; [congruence | assumption].
      * intros [(_ & _ & E) _]. congruence.
  - intros Hnone. rewrite count_picture by discriminate.
    rewrite (filter_length_NoDup _ (grid_list m) []); [reflexivity | | |].
    + apply grid_list_NoDup.
    + constructor.
    + intros p. rewrite glyph_path_iff. split.
      * intros Hin. inversion Hin.
      * intros [(_ & _ & _ & a & cs & E & _) _]. congruence.
Qed.

Lemma Maze_print_markers_witness :
  exists out,
    Maze_print ragged_maze = (out, Ok tt) /\
    count chr_A out = 1 /\ count chr_B out = 1 /\
    (solution ragged_maze = None -> count glyph_path out = 0).
Proof.
  apply (Maze_print_markers ragged_maze (0, 0) (2, 1)). wf_by_computation.
Defined.

Lemma solve_success_path (m : Maze) (s0 g : State) (fuel : nat) (m' : Maze) :
  WfMaze m s0 g ->
  solve fuel m = Some (m', Ok tt) ->
  exists st acts,
    m' = set_solution (set_run m st) (map Some acts, walk s0 acts) /\
    NoDup (s0 :: walk s0 acts) /\
    (forall c, In c (walk s0 acts) -> open_cell m c = true) /\
    List.last (walk s0 acts) s0 = g.
Proof.
  intros Hwf Hsolve.
  destruct (solve_success_node m s0 g fuel m' Hwf Hsolve)
    as (node & st & -> & Hc & Hg & Hnd & Hsub & Hgn & _).
  destruct (chain_backtrack_path m s0 node Hc) as (acts & Hrec & Hlast & Hps).
  exists st, acts. rewrite Hrec. split; [reflexivity|].
  assert (Hndp : NoDup (path_states node)).
  { rewrite path_states_ancestors. apply NoDup_cons. split; [|assumption].
    rewrite list_elem_of_In. intros Hin. apply Hsub in Hin. now rewrite Hg in Hin. }
  split; [|split].
  - rewrite Hps in Hndp. apply NoDup_ListNoDup, NoDup_rev in Hndp.
    rewrite rev_app_distr, rev_involutive in Hndp.
    now apply NoDup_ListNoDup.
  - intros c Hin.
    apply (chain_path_open m s0 node (wf_start_open _ _ _ Hwf) Hc).
    rewrite Hps. apply in_app_iff. left. now apply in_rev in Hin.
  - congruence.
Qed.

(** X13: the stars on the screen are the path.  After a successful [solve]
    the text written by [print] holds exactly one path glyph for each cell
    of the stored solution but the goal, which keeps its [B]; the start
    keeps its [A]. *)
Theorem solved_print_shows_path
    (m : Maze) (s0 g : State) (fuel : nat) (m' : Maze) :
  WfMaze m s0 g ->
  solve fuel m = Some (m', Ok tt) ->
  exists out actions cs,
    Maze_print m' = (out, Ok tt) /\
    solution m' = Some (actions, cs) /\
    count glyph_path out = Z.of_nat (length cs) - 1 /\
    count chr_A out = 1 /\ count chr_B out = 1.
Proof.
  intros Hwf Hsolve.
  destruct (solve_success_path m s0 g fuel m' Hwf Hsolve)
    as (st & acts & Hm' & Hnd & Hopen & Hlast).
  set (cs := walk s0 acts) in *.
  assert (Hsame : same_grid m m') by (subst m'; repeat split).
  pose proof (WfMaze_same_grid m m' s0 g Hsame Hwf) as Hwf'.
  assert (Hsol : solution m' = Some (map Some acts, cs)) by (subst m'; reflexivity).
  assert (Hne : cs <> []).
  { intros E. rewrite E in Hlast. simpl in Hlast.
    now apply (wf_distinct _ _ _ Hwf). }
  assert (Hsplit : cs = removelast cs ++ [g]).
  { rewrite <- Hlast. now apply app_removelast_last. }
  set (L := removelast cs) in *.
  assert (HndL : NoDup (s0 :: L ++ [g])) by (now rewrite <- Hsplit).
  apply NoDup_cons in HndL. destruct HndL as [Hs0 HndL].
  apply NoDup_app in HndL. destruct HndL as (HndL & HgL & _).
  exists (picture m'), (map Some acts), cs.
  pose proof Hwf' as [Hrect Hs Hg Hso Hgo Hd].
  split; [exact (Maze_print_picture m' s0 g Hrect Hs Hg)|].
  split; [exact Hsol|].
  unfold open_cell in Hso, Hgo. apply andb_true_iff in Hso, Hgo.
  destruct Hso as [Hsb Hsw], Hgo as [Hgb Hgw].
  apply negb_true_iff in Hsw, Hgw.
  split; [|split].
  - rewrite count_picture by discriminate.
    rewrite (filter_length_NoDup _ (grid_list m') L).
    + pose proof (f_equal (@length State) Hsplit) as Hlen.
      rewrite length_app in Hlen. simpl in Hlen. rewrite Hlen. lia.
    + apply grid_list_NoDup.
    + assumption.
    + intros p. rewrite glyph_path_iff. split.
      * intros Hp.
        assert (Hin : In p cs).
        { rewrite Hsplit. apply in_app_iff. left. now apply list_elem_of_In. }
        specialize (Hopen p Hin). unfold open_cell in Hopen.
        apply andb_true_iff in Hopen. destruct Hopen as [Hb Hw].
        apply negb_true_iff in Hw.
        destruct (open_cell_same_grid m m' p Hsame) as [Ew Eb].
        split; [|apply in_bounds_grid_list; congruence].
        split; [congruence|]. split; [|split].
        -- rewrite Hs. intros E. inversion E; subst p.
           apply Hs0. apply elem_of_app. now left.
        -- rewrite Hg. intros E. inversion E; subst p.
           apply (HgL g Hp). now left.
        -- exists (map Some acts), cs. split; [exact Hsol|].
           now apply list_elem_of_In.
      * intros [(_ & _ & Hng & a' & cs' & E & Hin) _].
        rewrite Hsol in E. inversion E; subst cs'.
        rewrite Hsplit in Hin. apply elem_of_app in Hin.
        destruct Hin as [Hin|Hin]; [assumption|].
        apply list_elem_of_singleton in Hin. subst p. now rewrite Hg in Hng.
  - rewrite count_picture by discriminate.
    rewrite (filter_length_NoDup _ (grid_list m') [s0]); [reflexivity | | |].
    + apply grid_list_NoDup.
    + apply NoDup_singleton.
    + intros p. rewrite list_elem_of_singleton, glyph_start_iff. split.
      * intros ->. split; [auto|]. now apply in_bounds_grid_list.
      * intros [[_ E] _]. congruence.
  - rewrite count_picture by discriminate.
    rewrite (filter_length_NoDup _ (grid_list m') [g]); [reflexivity | | |].
    + apply grid_list_NoDup.
    + apply NoDup_singleton.
    + intros p. rewrite list_elem_of_singleton, glyph_goal_iff. split.
      * intros ->. split; [|now apply in_bounds_grid_list].
        split; [assumption|]. split; [congruence | assumption].
      * intros [(_ & _ & E) _]. congruence.
Qed.

Lemma solved_print_shows_path_witness :
  exists out actions cs,
    Maze_print
      (set_solution (set_run ragged_maze
         (mkRun [mkNode (1, 0) (Some (mkNode (0, 0) None None)) (Some down)]
            {[ (0, 0); (0, 1); (1, 1) ]} 4))
         ([Some right; Some down; Some down], [(0, 1); (1, 1); (2, 1)]))
    = (out, Ok tt) /\
    solution
      (set_solution (set_run ragged_maze
         (mkRun [mkNode (1, 0) (Some (mkNode (0, 0) None None)) (Some down)]
            {[ (0, 0); (0, 1); (1, 1) ]} 4))
         ([Some right; Some down; Some down], [(0, 1); (1, 1); (2, 1)]))
    = Some (actions, cs) /\
    count glyph_path out = Z.of_nat (length cs) - 1 /\
    count chr_A out = 1 /\ count chr_B out = 1.
Proof.
  apply (solved_print_shows_path ragged_maze (0, 0) (2, 1) 5).
  - wf_by_computation.
  - vm_compute. reflexivity.
Defined.

(** ** The program *)

Lemma solve_same_grid (m m' : Maze) (fuel : nat) (r : Result unit) :
  solve fuel m = Some (m', r) -> same_grid m m'.
Proof.
  unfold solve. intros H. destruct (start m) as [s|] eqn:Hst.
  - destruct (loop fuel m (initial_run s)) as [[st [sol|e]]|];
      inversion H; subst; repeat split; simpl; congruence.
  - inversion H; subst; repeat split; simpl; congruence.
Qed.

Lemma main_io_after_init (contents : Text) (m : Maze) (fuel : nat) :
  Maze_init contents = Ok m ->
  main_io fuel contents
  = match solve fuel m with
    | None => None
    | Some (_, Raise e) =>
        Some (codes "Maze:" ++ [chr_LF] ++ picture m ++
              codes "Solving..." ++ [chr_LF], Raise e)
    | Some (m', Ok _) =>
        Some (codes "Maze:" ++ [chr_LF] ++ picture m ++
              codes "Solving..." ++ [chr_LF] ++
              codes "Solution:" ++ [chr_LF] ++ picture m', Ok tt)
    end.
Proof.
  intros Hinit. destruct (Maze_init_wf contents m Hinit) as (s0 & g & Hwf).
  unfold main_io. rewrite Hinit.
  rewrite (Maze_print_picture m s0 g (wf_rect _ _ _ Hwf)
             (wf_start _ _ _ Hwf) (wf_goal _ _ _ Hwf)).
  destruct (solve fuel m) as [[m' [u|e]]|] eqn:Hsolve.
  - pose proof (WfMaze_same_grid m m' s0 g
                  (solve_same_grid m m' fuel _ Hsolve) Hwf) as Hwf'.
    rewrite (Maze_print_picture m' s0 g (wf_rect _ _ _ Hwf')
               (wf_start _ _ _ Hwf') (wf_goal _ _ _ Hwf')).
    rewrite <- !app_assoc. reflexivity.
  - rewrite <- !app_assoc. reflexivity.
  - reflexivity.
Qed.

(** With the text of the file at hand: [print] never interferes (with its
    console output modelled, [main] ends as without), and the program
    terminates in one of three ways. *)
Lemma main_io_ends (contents : Text) :
  (forall fuel,
     match main_io fuel contents with
     | Some (_, r) => main fuel contents = Some r
     | None => main fuel contents = None
     end) /\
  exists n out r,
    (forall fuel, (n <= fuel)%nat -> main_io fuel contents = Some (out, r)) /\
    ((exists e, r = Raise e /\ format_error e /\ out = []) \/
     (exists m,
        Maze_init contents = Ok m /\
        r = Raise (Exception "no solution") /\
        out = codes "Maze:" ++ [chr_LF] ++ picture m ++
              codes "Solving..." ++ [chr_LF]) \/
     (exists m m',
        Maze_init contents = Ok m /\
        (forall fuel, (n <= fuel)%nat -> solve fuel m = Some (m', Ok tt)) /\
        r = Ok tt /\
        out = codes "Maze:" ++ [chr_LF] ++ picture m ++
              codes "Solving..." ++ [chr_LF] ++
              codes "Solution:" ++ [chr_LF] ++ picture m')).
Proof.
  split.
  - intros fuel. destruct (Maze_init contents) as [m|e] eqn:Hinit.
    + rewrite (main_io_after_init contents m fuel Hinit).
      unfold main. rewrite Hinit.
      destruct (solve fuel m) as [[m' [[]|e]]|]; reflexivity.
    + unfold main_io, main. rewrite Hinit. reflexivity.
  - destruct (Maze_init contents) as [m|e] eqn:Hinit.
    + destruct (Maze_init_wf contents m Hinit) as (s0 & g & Hwf).
      set (n := S (size (cells m))).
      destruct (solve_loop_post m s0 g (cells m) Hwf
                  (fun s => reachable_cells m s0 g s Hwf) n)
        as (st & r & Hloop & HP); [unfold n; lia|].
      assert (Hsolve : forall fuel, (n <= fuel)%nat ->
                solve fuel m
                = Some (match r with
                        | Ok sol => (set_solution (set_run m st) sol, Ok tt)
                        | Raise e => (set_run m st, Raise e)
                        end)).
      { intros fuel Hfuel. apply (solve_of_loop m s0); [apply Hwf|].
        now apply (loop_more_fuel m n fuel). }
      destruct (post_outcome _ _ _ _ _ _ HP) as [(-> & _ & _)|(node & -> & _)].
      * exists n. eexists _, _. split.
        -- intros fuel Hfuel.
           rewrite (main_io_after_init contents m fuel Hinit), (Hsolve fuel Hfuel).
           reflexivity.
        -- right. left. exists m. auto.
      * exists n. eexists _, _. split.
        -- intros fuel Hfuel.
           rewrite (main_io_after_init contents m fuel Hinit), (Hsolve fuel Hfuel).
           reflexivity.
        -- right. right. eexists m, _. split; [reflexivity|].
           split; [exact Hsolve|]. split; reflexivity.
    + exists 0%nat, [], (Raise e). split.
      * intros fuel _. unfold main_io. now rewrite Hinit.
      * left. exists e. split; [reflexivity|]. split; [|reflexivity].
        destruct (Maze_init_cases contents)
          as [[_ E]|[(_ & _ & E)|(_ & _ & w & _ & _ & E)]];
          rewrite E in Hinit; inversion Hinit; [now left | now right].
Qed.

(** X14: how the program ends, given a console that takes the output.
    [main] always terminates, in one of four ways: by the exception of
    [open] or [read] on the maze file ([FileNotFoundError] for one), with
    nothing written; by a format exception of the construction, with
    nothing written; by the no-solution exception, after the heading, the
    picture of the maze and the line "Solving..."; or normally, having
    written after these the heading "Solution:" and the picture of the
    solved maze. *)
Theorem main_file_ends (file : FileRead) :
  exists n out ending,
    (forall fuel, (n <= fuel)%nat -> main_file fuel file = Some (out, ending)) /\
    ((exists cls, file = ReadRaises cls /\ ending = EndsByRead cls /\ out = []) \/
     (exists contents e,
        file = ReadText contents /\ Maze_init contents = Raise e /\
        format_error e /\ ending = EndsBy e /\ out = []) \/
     (exists contents m,
        file = ReadText contents /\ Maze_init contents = Ok m /\
        (forall fuel, (n <= fuel)%nat ->
           exists m', solve fuel m = Some (m', Raise (Exception "no solution"))) /\
        ending = EndsBy (Exception "no solution") /\
        out = codes "Maze:" ++ [chr_LF] ++ picture m ++
              codes "Solving..." ++ [chr_LF]) \/
     (exists contents m m',
        file = ReadText contents /\ Maze_init contents = Ok m /\
        (forall fuel, (n <= fuel)%nat -> solve fuel m = Some (m', Ok tt)) /\
        ending = EndsNormally /\
        out = codes "Maze:" ++ [chr_LF] ++ picture m ++
              codes "Solving..." ++ [chr_LF] ++
              codes "Solution:" ++ [chr_LF] ++ picture m')).
Proof.
  destruct file as [contents|cls].
  2:{ exists 0%nat, [], (EndsByRead cls). split; [reflexivity|].
      left. exists cls. auto. }
  destruct (Maze_init contents) as [m|e] eqn:Hinit.
  - destruct (Maze_init_wf contents m Hinit) as (s0 & g & Hwf).
    set (n := S (size (cells m))).
    destruct (solve_loop_post m s0 g (cells m) Hwf
                (fun s => reachable_cells m s0 g s Hwf) n)
      as (st & r & Hloop & HP); [unfold n; lia|].
    assert (Hsolve : forall fuel, (n <= fuel)%nat ->
              solve fuel m
              = Some (match r with
                      | Ok sol => (set_solution (set_run m st) sol, Ok tt)
                      | Raise e => (set_run m st, Raise e)
                      end)).
    { intros fuel Hfuel. apply (solve_of_loop m s0); [apply Hwf|].
      now apply (loop_more_fuel m n fuel). }
    destruct (post_outcome _ _ _ _ _ _ HP) as [(-> & _ & _)|(node & -> & _)].
    + exists n. eexists _, _. split.
      * intros fuel Hfuel. cbn [main_file].
        rewrite (main_io_after_init contents m fuel Hinit), (Hsolve fuel Hfuel).
        reflexivity.
      * right. right. left. exists contents, m.
        split; [reflexivity|]. split; [assumption|]. split; [|auto].
        intros fuel Hfuel. rewrite (Hsolve fuel Hfuel). eauto.
    + exists n. eexists _, _. split.
      * intros fuel Hfuel. cbn [main_file].
        rewrite (main_io_after_init contents m fuel Hinit), (Hsolve fuel Hfuel).
        reflexivity.
      * right. right. right. eexists contents, m, _.
        split; [reflexivity|]. split; [assumption|].
        split; [exact Hsolve|]. split; reflexivity.
  - exists 0%nat, [], (EndsBy e). split.
    + intros fuel _. unfold main_file, main_io. now rewrite Hinit.
    + right. left. exists contents, e.
      split; [reflexivity|]. split; [assumption|]. split; [|auto].
      destruct (Maze_init_cases contents)
        as [[_ E]|[(_ & _ & E)|(_ & _ & w & _ & _ & E)]];
        rewrite E in Hinit; inversion Hinit; [now left | now right].
Qed.

Example main_io_AB :
  main_io 3 (codes "AB")
  = Some (codes "Maze:" ++ [chr_LF] ++
          [chr_LF] ++ codes "AB" ++ [chr_LF] ++ [chr_LF] ++
          codes "Solving..." ++ [chr_LF] ++
          codes "Solution:" ++ [chr_LF] ++
          [chr_LF] ++ codes "AB" ++ [chr_LF] ++ [chr_LF],
          Ok tt).
Proof. vm_compute. reflexivity. Qed.

Example Maze_print_solved_ragged :
  match solve 5 ragged_maze with
  | Some (m', _) => fst (Maze_print m')
  | None => []
  end
  = [chr_LF] ++
    [chr_A; glyph_path; glyph_wall; chr_LF] ++
    [glyph_open; glyph_path; glyph_wall; chr_LF] ++
    [glyph_open; chr_B; glyph_open; chr_LF] ++
    [chr_LF].
Proof. vm_compute. reflexivity. Qed.
